(** * Pure64 physical-memory map allocator (src/map.c)

    A shallow embedding of [map.c]: the allocation table lives in the
    byte-addressed physical memory it manages, exactly as in the C code, and
    every operation threads the [pure64_map] structure and the memory. *)

From Stdlib Require Import ZArith List Bool Lia Permutation Sorted.
Import ListNotations.
Local Open Scope Z_scope.

(** ** Machine integers and physical memory *)

(** [uint64_t] arithmetic: every sum and product of the C code is taken
    modulo 2^64. *)
Definition wrap64 (z : Z) : Z := z mod 0x10000000000000000.

(** [NULL] is [(void * ) 0x00]. *)
Definition NULL : Z := 0.

(** [#define BOUNDARY 0x1000] *)
Definition BOUNDARY : Z := 0x1000.

(** The tombstone written by [pure64_map_free]: [0xffffffffffffffff]. *)
Definition MAX_ADDR : Z := 0xffffffffffffffff.

Module Mem.

(** Physical memory: one byte per address. *)
Definition t : Type := Z -> Z.

Definition load8 (m : t) (a : Z) : Z := m (wrap64 a) mod 256.

Definition store8 (m : t) (a v : Z) : t :=
  let p := wrap64 a in
  let b := v mod 256 in
  fun x => if x =? p then b else m x.

(** Little-endian accesses of [n] bytes (x86-64). *)
Fixpoint load_le (n : nat) (m : t) (a : Z) : Z :=
  match n with
  | O => 0
  | S k => load8 m a + 256 * load_le k m (a + 1)
  end.

Fixpoint store_le (n : nat) (m : t) (a v : Z) : t :=
  match n with
  | O => m
  | S k => store_le k (store8 m a v) (a + 1) (v / 256)
  end.

Definition load64 : t -> Z -> Z := load_le 8.
Definition store64 : t -> Z -> Z -> t := store_le 8.

(** Modelled from the spec: [pure64_memcpy] of string.h, whose source is not
    part of the allocator (spec section 1: "string/memory utility routines
    (memcpy equivalent)").  It is taken as the usual freestanding byte loop
    [for (i = 0; i < size; i++) dst[i] = src[i];]. *)
Fixpoint memcpy_loop (n : nat) (m : t) (dst src i : Z) : t :=
  match n with
  | O => m
  | S k => memcpy_loop k (store8 m (dst + i) (load8 m (src + i))) dst src (i + 1)
  end.

Definition pure64_memcpy (m : t) (dst src size : Z) : t :=
  memcpy_loop (Z.to_nat size) m dst src 0.

End Mem.

(** ** Data model *)

(** [struct pure64_alloc] (alloc.h): the three fields map.c reads and
    writes. *)
Record pure64_alloc : Type := mk_alloc {
  alloc_addr : Z;
  alloc_size : Z;
  alloc_reserved : Z
}.

(** Modelled from the spec: [sizeof(struct pure64_alloc)]; alloc.h is absent,
    the record has three pointer-width attributes (spec section 3), laid out
    in that order on x86-64. *)
Definition sizeof_pure64_alloc : Z := 24.
Definition off_addr : Z := 0.
Definition off_size : Z := 8.
Definition off_reserved : Z := 16.

(** Modelled from the spec: the firmware map cursor of e820.h (spec section
    4.1).  An entry yields its base, its length and its usability; the cursor
    is a position in the immutable entry sequence, [pure64_e820_end] is the
    empty remainder and [pure64_e820_next] its tail. *)
Record pure64_e820 : Type := mk_e820 {
  e820_addr : Z;
  e820_size : Z;
  e820_usable : bool
}.

(** [struct pure64_map] (map.h): the fields map.c uses. *)
Record pure64_map : Type := mk_map {
  e820 : list pure64_e820;
  alloc_table : Z;
  alloc_count : Z;
  ahci_driver : Z
}.

Definition set_table (map : pure64_map) (tbl cnt : Z) : pure64_map :=
  mk_map (e820 map) tbl cnt (ahci_driver map).

Definition set_count (map : pure64_map) (cnt : Z) : pure64_map :=
  mk_map (e820 map) (alloc_table map) cnt (ahci_driver map).

Definition set_driver (map : pure64_map) (p : Z) : pure64_map :=
  mk_map (e820 map) (alloc_table map) (alloc_count map) p.

(** [&map->alloc_table[i]] *)
Definition entry (map : pure64_map) (i : Z) : Z :=
  wrap64 (alloc_table map + i * sizeof_pure64_alloc).

(** [*p] read as a [struct pure64_alloc]. *)
Definition read_alloc (m : Mem.t) (p : Z) : pure64_alloc :=
  mk_alloc (Mem.load64 m (p + off_addr))
           (Mem.load64 m (p + off_size))
           (Mem.load64 m (p + off_reserved)).

(** [*p = r] *)
Definition write_alloc (m : Mem.t) (p : Z) (r : pure64_alloc) : Mem.t :=
  Mem.store64
    (Mem.store64 (Mem.store64 m (p + off_addr) (alloc_addr r))
                 (p + off_size) (alloc_size r))
    (p + off_reserved) (alloc_reserved r).

(** The live records [alloc_table[0 .. alloc_count-1]], read from memory. *)
Definition live_records (map : pure64_map) (m : Mem.t) : list pure64_alloc :=
  List.map (fun i => read_alloc m (entry map (Z.of_nat i)))
           (seq 0 (Z.to_nat (alloc_count map))).

(** ** Allocation table (static helpers of map.c) *)

(** One run of the [for] loop of [sort_alloc_table]; the loop test
    [(i < count) && ((i + 1) < count)] lets it run [count - 1] times.
    [flag] is [sorted_flag]. *)
Fixpoint sort_pass (n : nat) (i : Z) (map : pure64_map) (m : Mem.t)
         (flag : bool) : Mem.t * bool :=
  match n with
  | O => (m, flag)
  | S n' =>
      let a := entry map i in
      let b := entry map (i + 1) in
      let addr_a := Mem.load64 m (a + off_addr) in
      let addr_b := Mem.load64 m (b + off_addr) in
      if addr_a >? addr_b then
        let tmp := read_alloc m a in
        let m1 := write_alloc m a (read_alloc m b) in
        let m2 := write_alloc m1 b tmp in
        sort_pass n' (i + 1) map m2 true
      else sort_pass n' (i + 1) map m flag
  end.

(** [goto bubbleSortLoop] while a pass swapped something.  [fuel] bounds the
    number of passes; [None] is an exhausted bound. *)
Fixpoint sort_loop (fuel : nat) (map : pure64_map) (m : Mem.t) : option Mem.t :=
  match fuel with
  | O => None
  | S f =>
      let '(m', flag) :=
        sort_pass (Z.to_nat (alloc_count map - 1)) 0 map m false in
      if flag then sort_loop f map m' else Some m'
  end.

(** A bubble sort of [count] records needs at most [count] passes (the last
    one without a swap); see [sort_alloc_table_terminates]. *)
Definition sort_alloc_table (map : pure64_map) (m : Mem.t) : option Mem.t :=
  sort_loop (S (Z.to_nat (alloc_count map))) map m.

(** The table scan of [find_suitable_addr]:
    [for (i = 0; i < map->alloc_count; i++)].  Returns [i] and the candidate
    [addr] at loop exit; a [break] leaves [i < alloc_count]. *)
Fixpoint scan_allocs (n : nat) (i : Z) (map : pure64_map) (m : Mem.t)
         (size addr2 size2 addr : Z) : Z * Z :=
  match n with
  | O => (i, addr)
  | S n' =>
      let alloc := entry map i in
      let addr3 := Mem.load64 m (alloc + off_addr) in
      let size3 := Mem.load64 m (alloc + off_reserved) in
      if (wrap64 (addr + size) >? addr3) && (addr <=? addr3) then
        let addr := wrap64 (addr3 + size3) in
        if wrap64 (addr + size) >=? wrap64 (addr2 + size2) then (i, addr)
        else scan_allocs n' (i + 1) map m size addr2 size2 addr
      else scan_allocs n' (i + 1) map m size addr2 size2 addr
  end.

(** The [while (!pure64_e820_end(e820))] loop of [find_suitable_addr]. *)
Fixpoint find_suitable_loop (cursor : list pure64_e820) (map : pure64_map)
         (m : Mem.t) (size : Z) : Z :=
  match cursor with
  | [] => NULL
  | ent :: next =>
      if negb (e820_usable ent) then find_suitable_loop next map m size
      else
        let addr2 := e820_addr ent in
        let size2 := e820_size ent in
        if size2 <? size then find_suitable_loop next map m size
        else
          let '(i, addr) :=
            scan_allocs (Z.to_nat (alloc_count map)) 0 map m size addr2 size2
                        addr2 in
          if i <? alloc_count map then find_suitable_loop next map m size
          else addr
  end.

Definition find_suitable_addr (map : pure64_map) (m : Mem.t) (size : Z) : Z :=
  find_suitable_loop (e820 map) map m size.

(** [find_alloc_entry]: pointer to the first live record whose [addr] is the
    given one, or [NULL]. *)
Fixpoint find_alloc_loop (n : nat) (i : Z) (map : pure64_map) (m : Mem.t)
         (addr : Z) : Z :=
  match n with
  | O => NULL
  | S n' =>
      if Mem.load64 m (entry map i + off_addr) =? addr then entry map i
      else find_alloc_loop n' (i + 1) map m addr
  end.

Definition find_alloc_entry (map : pure64_map) (m : Mem.t) (addr : Z) : Z :=
  find_alloc_loop (Z.to_nat (alloc_count map)) 0 map m addr.

(** ** Public operations *)

(** The page rounding shared by malloc and realloc:
    [if ((size % BOUNDARY) != 0) size += BOUNDARY - (size % BOUNDARY);] *)
Definition round_boundary (size : Z) : Z :=
  if negb (size mod BOUNDARY =? 0)
  then wrap64 (size + (BOUNDARY - size mod BOUNDARY))
  else size.

(** A call returns its pointer result with the updated map and memory;
    [None] only when the sort ran out of passes. *)
Definition result : Type := option (Z * pure64_map * Mem.t).

(** [pure64_map_realloc] from the table lookup on (map.c lines 340-387), that
    is for [addr != NULL]. *)
Definition realloc_block (map : pure64_map) (m : Mem.t) (addr size : Z)
  : result :=
  let alloc := find_alloc_entry map m addr in
  if alloc =? NULL then Some (NULL, map, m)
  else if Mem.load64 m (alloc + off_reserved) >=? size then
    let m := Mem.store64 m (alloc + off_size) size in
    Some (addr, map, m)
  else
    let reserved := round_boundary size in
    let addr2 := find_suitable_addr map m size in
    if addr2 =? NULL then Some (NULL, map, m)
    else
      let m := Mem.store64 m (alloc + off_addr) addr2 in
      let m := Mem.store64 m (alloc + off_size) size in
      let m := Mem.store64 m (alloc + off_reserved) reserved in
      let m := Mem.pure64_memcpy m addr2 addr
                                 (Mem.load64 m (alloc + off_size)) in
      match sort_alloc_table map m with
      | None => None
      | Some m => Some (addr2, map, m)
      end.

(** [append_alloc]; the [int] result is the first component.  It is only
    called by [pure64_map_malloc] after the [alloc_table == NULL] guard, so
    its call of [pure64_map_realloc] on [map->alloc_table] continues at the
    table lookup (see [pure64_map_realloc_table]). *)
Definition append_alloc (map : pure64_map) (m : Mem.t) (alloc : pure64_alloc)
  : option (Z * pure64_map * Mem.t) :=
  let alloc_table_size := wrap64 (alloc_count map + 1) in
  let alloc_table_size := wrap64 (alloc_table_size * sizeof_pure64_alloc) in
  match realloc_block map m (alloc_table map) alloc_table_size with
  | None => None
  | Some (tbl, map, m) =>
      if tbl =? NULL then Some (-1, map, m)
      else
        let map := set_table map tbl (wrap64 (alloc_count map + 1)) in
        let m := write_alloc m (entry map (wrap64 (alloc_count map - 1))) alloc in
        Some (0, map, m)
  end.

Definition pure64_map_malloc (map : pure64_map) (m : Mem.t) (size : Z)
  : result :=
  if alloc_table map =? NULL then Some (NULL, map, m)
  else
    let user_size := size in
    let size := round_boundary size in
    let addr := find_suitable_addr map m size in
    if addr =? NULL then Some (NULL, map, m)
    else
      match append_alloc map m (mk_alloc addr user_size size) with
      | None => None
      | Some (rc, map, m) =>
          if negb (rc =? 0) then Some (NULL, map, m)
          else Some (addr, map, m)
      end.

Definition pure64_map_realloc (map : pure64_map) (m : Mem.t) (addr size : Z)
  : result :=
  if addr =? NULL then pure64_map_malloc map m size
  else realloc_block map m addr size.

(** [pure64_map_free] returns nothing: the result is the new map and
    memory. *)
Definition pure64_map_free (map : pure64_map) (m : Mem.t) (addr : Z)
  : option (pure64_map * Mem.t) :=
  if addr =? NULL then Some (map, m)
  else
    let alloc := find_alloc_entry map m addr in
    if alloc =? NULL then Some (map, m)
    else
      let m := Mem.store64 m (alloc + off_addr) MAX_ADDR in
      match sort_alloc_table map m with
      | None => None
      | Some m => Some (set_count map (wrap64 (alloc_count map - 1)), m)
      end.

(** The search loop of [pure64_map_init] (map.c lines 221-253).  Returns the
    cursor at loop exit with the locals [addr] and [size]. *)
Fixpoint init_scan (cursor : list pure64_e820) (addr size : Z)
  : list pure64_e820 * Z * Z :=
  match cursor with
  | [] => ([], addr, size)
  | ent :: next =>
      if negb (e820_usable ent) then init_scan next addr size
      else
        let addr := e820_addr ent in
        let size := e820_size ent in
        if wrap64 (addr + size) <? 0x60000 then init_scan next addr size
        else
          let '(addr, size) :=
            if addr <? 0x60000 then (0x60000, 0x60000 - addr)
            else (addr, size) in
          if size <? sizeof_pure64_alloc * 2 then init_scan next addr size
          else (cursor, addr, size)
  end.

(** [pure64_map_init] up to the driver allocation (map.c lines 202-276): the
    bootstrap of the allocation table. *)
Definition init_alloc_table (fw : list pure64_e820) (m : Mem.t)
  : pure64_map * Mem.t :=
  let map := mk_map fw NULL 0 NULL in
  let '(cursor, addr, _) := init_scan fw 0 0 in
  match cursor with
  | [] => (set_table map NULL 0, m)
  | _ :: _ =>
      let map := set_table map addr 2 in
      let m := write_alloc m (entry map 0) (mk_alloc 0 0x60000 0x60000) in
      let m := write_alloc m (entry map 1)
                 (mk_alloc (alloc_table map)
                           (sizeof_pure64_alloc * 2)
                           (sizeof_pure64_alloc * 2)) in
      (map, m)
  end.

(** [pure64_map_init]: bootstrap, then the driver block through the normal
    allocate path and, when the block is not [NULL], the set-up of the driver
    (map.c lines 279-286).  ahci.h and the driver are absent from src/:
    [sizeof_ahci_driver] stands for [sizeof(struct ahci_driver)] and
    [ahci_setup] for lines 280-285, that is [ahci_init], the stores of
    [mm_data], [mm_malloc], [mm_realloc] and [mm_free] into the driver
    structure, and [ahci_load].  It receives the map, whose [ahci_driver]
    field is the block, and the memory, and returns them as the driver
    leaves them (it may write the block and allocate through the
    trampolines). *)
Definition pure64_map_init (fw : list pure64_e820) (m : Mem.t)
           (sizeof_ahci_driver : Z)
           (ahci_setup : pure64_map -> Mem.t -> option (pure64_map * Mem.t))
  : option (pure64_map * Mem.t) :=
  let '(map, m) := init_alloc_table fw m in
  match pure64_map_malloc map m sizeof_ahci_driver with
  | None => None
  | Some (p, map, m) =>
      let map := set_driver map p in
      if negb (ahci_driver map =? NULL) then ahci_setup map m
      else Some (map, m)
  end.

(** [map->alloc_table[map->alloc_count - 1]], the slot [append_alloc]
    writes. *)
Definition last_record (map : pure64_map) (m : Mem.t) : pure64_alloc :=
  read_alloc m (entry map (wrap64 (alloc_count map - 1))).

(** ** Properties of states *)

Definition uint64 (z : Z) : Prop := 0 <= z < 2 ^ 64.

Definition alloc_in_range (r : pure64_alloc) : Prop :=
  uint64 (alloc_addr r) /\ uint64 (alloc_size r) /\ uint64 (alloc_reserved r).

(** The firmware entries hold 64-bit values. *)
Definition fw_in_range (fw : list pure64_e820) : Prop :=
  Forall (fun e => uint64 (e820_addr e) /\ uint64 (e820_size e)) fw.

(** The table is an array inside the address space: its [alloc_count] slots
    do not wrap around the end of memory. *)
Definition table_fits (map : pure64_map) : Prop :=
  0 < alloc_table map /\ 0 <= alloc_count map /\
  alloc_table map + alloc_count map * sizeof_pure64_alloc <= 2 ^ 64.

(** The intervals [[addr, addr+reserved)] of two records intersect. *)
Definition overlap (a b : pure64_alloc) : bool :=
  (alloc_addr a <? alloc_addr b + alloc_reserved b) &&
  (alloc_addr b <? alloc_addr a + alloc_reserved a).

Fixpoint non_overlapb (l : list pure64_alloc) : bool :=
  match l with
  | [] => true
  | a :: t => forallb (fun b => negb (overlap a b)) t && non_overlapb t
  end.

(** Spec section 8, invariant 1. *)
Definition non_overlap (l : list pure64_alloc) : Prop :=
  forall i j a b, i <> j -> nth_error l i = Some a -> nth_error l j = Some b ->
                  overlap a b = false.


(** Spec section 8, invariant 5: [addr_i < addr_{i+1}]. *)
Fixpoint sorted_strict (l : list pure64_alloc) : Prop :=
  match l with
  | a :: (b :: _) as t => alloc_addr a < alloc_addr b /\ sorted_strict t
  | _ => True
  end.

(** Byte ranges that stay apart modulo 2^64: [q] is at least [n] bytes above
    [p] and at least [n] bytes below its wrap-around. *)
Definition apart (n p q : Z) : Prop :=
  n <= wrap64 (q - p) <= 2 ^ 64 - n.

(** ** The sort on the list of live records

    [sort_pass] and [sort_loop] seen on the list of records instead of the
    memory; [sort_pass_refines] and [sort_loop_refines] relate the two. *)

(** One pass from the record [x] on: [x] is compared with its successor and
    swapped with it when its address is greater. *)
Fixpoint bubble (x : pure64_alloc) (l : list pure64_alloc)
  : list pure64_alloc * bool :=
  match l with
  | [] => ([x], false)
  | y :: t =>
      if alloc_addr x >? alloc_addr y
      then (y :: fst (bubble x t), true)
      else (x :: fst (bubble y t), snd (bubble y t))
  end.

Definition bubble_pass (l : list pure64_alloc) : list pure64_alloc * bool :=
  match l with
  | [] => ([], false)
  | x :: t => bubble x t
  end.

Fixpoint bubble_loop (fuel : nat) (l : list pure64_alloc)
  : option (list pure64_alloc) :=
  match fuel with
  | O => None
  | S f =>
      let '(l', flag) := bubble_pass l in
      if flag then bubble_loop f l' else Some l'
  end.

Definition addr_le (a b : pure64_alloc) : Prop := alloc_addr a <= alloc_addr b.

(** Ascending by [addr], equal addresses allowed: what the comparison
    [addr_a > addr_b] of the sort establishes. *)
Definition ascending : list pure64_alloc -> Prop := StronglySorted addr_le.

(** The bytes of the table's [alloc_count] slots. *)
Definition in_table (map : pure64_map) (x : Z) : Prop :=
  alloc_table map <= x < alloc_table map + alloc_count map * sizeof_pure64_alloc.

(** ** Scenarios

    Sequences of calls are written in the option monad of [result]. *)

Definition bind {A B : Type} (c : option A) (k : A -> option B) : option B :=
  match c with
  | None => None
  | Some a => k a
  end.

Notation "' pat <- c ;; k" :=
  (bind c (fun x => let 'pat := x in k))
  (at level 61, pat pattern, c at next level, right associativity).

(** What a test harness observes of a call: the returned pointer, the table
    pointer and the live records. *)
Definition observe (r : result) : option (Z * Z * list pure64_alloc) :=
  '(p, map, m) <- r ;; Some (p, alloc_table map, live_records map m).

Definition zero_mem : Mem.t := fun _ => 0.

(** The firmware map of the spec's scenarios (section 8): one usable region
    [[0x60000, 0x1000000)]. *)
Definition fw_one : list pure64_e820 := [mk_e820 0x60000 0xFA0000 true].

(** A firmware map with a small usable region that can hold the grown table
    but no page, and a large one for the blocks. *)
Definition fw_two : list pure64_e820 :=
  [mk_e820 0x60000 0x100 true; mk_e820 0x100000 0x100000 true].

(** A usable region whose space above the bootstrap table is exactly one
    page. *)
Definition fw_exact : list pure64_e820 := [mk_e820 0x60000 0x1030 true].

(** A usable region that ends 16 bytes above the threshold [0x60000]. *)
Definition fw_short : list pure64_e820 := [mk_e820 0x5F000 0x1010 true].

(** The table right after the bootstrap of [pure64_map_init]. *)
Definition boot (fw : list pure64_e820) : result :=
  let '(map, m) := init_alloc_table fw zero_mem in Some (NULL, map, m).

(** [boot], then the first [pure64_map_malloc(map, size)]. *)
Definition first_malloc (fw : list pure64_e820) (size : Z) : result :=
  '(_, map, m) <- boot fw ;; pure64_map_malloc map m size.

(** Two blocks, the first one freed again: a hole below the second block. *)
Definition hole_below : result :=
  '(p, map, m) <- first_malloc fw_two 0x1000 ;;
  '(q, map, m) <- pure64_map_malloc map m 0x1000 ;;
  '(map, m) <- pure64_map_free map m p ;;
  Some (q, map, m).

Definition malloc_into_hole : result :=
  '(_, map, m) <- hole_below ;; pure64_map_malloc map m 0x1000.

(** One more allocation, placed by a scan of the table [malloc_into_hole]
    left behind. *)
Definition malloc_on_unsorted_table : result :=
  '(_, map, m) <- malloc_into_hole ;; pure64_map_malloc map m 0x1000.

(** A zero-size block placed in the 48 bytes the bootstrap table left
    behind, then grown to 40 bytes. *)
Definition zero_block : result :=
  '(_, map, m) <- first_malloc fw_two 0x800 ;; pure64_map_malloc map m 0.

Definition grow_zero_block : result :=
  '(q, map, m) <- zero_block ;; pure64_map_realloc map m q 40.

(** Spec scenario S5, [p = malloc(0x800); realloc(p, 0x2000)], in a memory
    where the byte behind the user data of [p] holds [0xAA] and the byte at
    the same offset of the new place holds [0x55]. *)
Definition marked_mem : Mem.t :=
  Mem.store8 (Mem.store8 zero_mem 0x100800 0xAA) 0x101800 0x55.

Definition block_0x800 : result :=
  let '(map, m) := init_alloc_table fw_two marked_mem in
  pure64_map_malloc map m 0x800.

(** Returned pointers, the size recorded for [p] before the call, and the
    byte at offset [0x800]: at the new address before the call, at the new
    address after it, and at the old address before it. *)
Definition relocation_probe : option (Z * Z * Z * Z * Z * Z) :=
  '(p, map, m) <- block_0x800 ;;
  let old_size := alloc_size (last_record map m) in
  '(p', map', m') <- pure64_map_realloc map m p 0x2000 ;;
  Some (p, p', old_size,
        Mem.load8 m (p' + old_size), Mem.load8 m' (p' + old_size),
        Mem.load8 m (p + old_size)).

(** Placement of [size] bytes in the bootstrapped table. *)
Definition placement_after_boot (fw : list pure64_e820) (size : Z) : option Z :=
  '(_, map, m) <- boot fw ;; Some (find_suitable_addr map m size).

(** The map structure and the memory right after the bootstrap. *)
Definition boot_map (fw : list pure64_e820) : pure64_map :=
  fst (init_alloc_table fw zero_mem).

Definition boot_mem (fw : list pure64_e820) : Mem.t :=
  snd (init_alloc_table fw zero_mem).

(** [realloc] called on the base of record 0, the bootstrap reservation
    [{0, 0x60000, 0x60000}]. *)
Definition realloc_record0 : result :=
  '(_, map, m) <- boot fw_one ;; pure64_map_realloc map m 0 0x500.

(** [realloc(p, 0x400)] of the block [p = malloc(0x500)] that shares its
    address with the table. *)
Definition realloc_shared_address : result :=
  '(p, map, m) <- first_malloc fw_one 0x500 ;; pure64_map_realloc map m p 0x400.

(** The pointer a call returns and the record in the last slot. *)
Definition outcome (r : result) : option (Z * pure64_alloc) :=
  '(p, map, m) <- r ;; Some (p, last_record map m).

(** ** Views used by the further properties of map.c *)

(** The table scan of [find_suitable_addr] on the list of live records. *)
Fixpoint scan_list (l : list pure64_alloc) (i size addr2 size2 addr : Z)
  : Z * Z :=
  match l with
  | [] => (i, addr)
  | r :: t =>
      let addr3 := alloc_addr r in
      let size3 := alloc_reserved r in
      if (wrap64 (addr + size) >? addr3) && (addr <=? addr3) then
        let addr := wrap64 (addr3 + size3) in
        if wrap64 (addr + size) >=? wrap64 (addr2 + size2) then (i, addr)
        else scan_list t (i + 1) size addr2 size2 addr
      else scan_list t (i + 1) size addr2 size2 addr
  end.

(** The entries the search loop of [pure64_map_init] stops at: usable, not
    ending below [0x60000] in 64-bit arithmetic, and with 48 bytes in what
    the loop takes for their size. *)
Definition init_suitable (e : pure64_e820) : Prop :=
  e820_usable e = true /\
  0x60000 <= wrap64 (e820_addr e + e820_size e) /\
  (e820_addr e < 0x60000 /\ 2 * sizeof_pure64_alloc <= 0x60000 - e820_addr e
   \/ 0x60000 <= e820_addr e /\ 2 * sizeof_pure64_alloc <= e820_size e).

(** [unsigned int] arguments of the driver trampolines. *)
Definition wrap32 (z : Z) : Z := z mod 0x100000000.

(** [ahci_malloc], [ahci_realloc] and [ahci_free]: the driver's view of the
    allocator, with a 32-bit size. *)
Definition ahci_malloc (map : pure64_map) (m : Mem.t) (size : Z) : result :=
  pure64_map_malloc map m (wrap32 size).

Definition ahci_realloc (map : pure64_map) (m : Mem.t) (addr size : Z)
  : result :=
  pure64_map_realloc map m addr (wrap32 size).

Definition ahci_free (map : pure64_map) (m : Mem.t) (addr : Z)
  : option (pure64_map * Mem.t) :=
  pure64_map_free map m addr.

(** The interval [[addr, addr+reserved)] of a record and a block
    [[p, p+size)] do not meet. *)
Definition clear_of (p size : Z) (r : pure64_alloc) : Prop :=
  p + size <= alloc_addr r \/ alloc_addr r + alloc_reserved r <= p.

(** A firmware map whose entries do not wrap around the address space. *)
Definition fw_no_wrap (fw : list pure64_e820) : Prop :=
  Forall (fun e => 0 <= e820_addr e /\ 0 <= e820_size e /\
                   e820_addr e + e820_size e < 2 ^ 64) fw.

(** Record [r] ends at or before the base of [s]. *)
Definition ends_before (r s : pure64_alloc) : Prop :=
  alloc_addr r + alloc_reserved r <= alloc_addr s.

(** Records in ascending order whose intervals [[addr, addr+reserved)] do
    not meet. *)
Definition disjoint_ascending : list pure64_alloc -> Prop :=
  StronglySorted ends_before.

(** No record starts below a usable firmware entry and reaches into it. *)
Definition no_straddle (fw : list pure64_e820) (l : list pure64_alloc)
  : Prop :=
  Forall (fun e => e820_usable e = true ->
                   Forall (fun r => alloc_addr r < e820_addr e ->
                                    alloc_addr r + alloc_reserved r
                                    <= e820_addr e) l) fw.

(** A block of [size] bytes inside a usable firmware entry. *)
Definition in_usable (fw : list pure64_e820) (p size : Z) : Prop :=
  exists e, In e fw /\ e820_usable e = true /\
            e820_addr e <= p /\ p + size <= e820_addr e + e820_size e.

(** The map and the memory a call leaves behind. *)
Definition state_map (r : result) : pure64_map :=
  match r with
  | Some (_, map, _) => map
  | None => mk_map [] NULL 0 NULL
  end.

Definition state_mem (r : result) : Mem.t :=
  match r with
  | Some (_, _, m) => m
  | None => zero_mem
  end.

(* ------------------------------------------------------------------ *)
(** * Proofs *)

(** ** Arithmetic modulo 2^64 *)

Ltac two64 := change (2 ^ 64) with 18446744073709551616 in *.

Lemma wrap64_range z : 0 <= wrap64 z < 2 ^ 64.
Proof. unfold wrap64; two64. apply Z.mod_pos_bound; lia. Qed.

Lemma wrap64_unique x k r : 0 <= r < 2 ^ 64 -> x = k * 2 ^ 64 + r -> wrap64 x = r.
Proof.
  unfold wrap64; two64; intros Hr Hx.
  symmetry; apply (Z.mod_unique x _ k r); lia.
Qed.

Lemma wrap64_small z : 0 <= z < 2 ^ 64 -> wrap64 z = z.
Proof. intros H; apply (wrap64_unique z 0 z); lia. Qed.

Lemma wrap64_eq_diff x y : wrap64 x = wrap64 y -> exists k, x - y = k * 2 ^ 64.
Proof.
  unfold wrap64; two64; intros H.
  exists (x / 18446744073709551616 - y / 18446744073709551616).
  pose proof (Z.div_mod x 18446744073709551616).
  pose proof (Z.div_mod y 18446744073709551616). lia.
Qed.

Lemma wrap64_decompose x : exists k, x = k * 2 ^ 64 + wrap64 x.
Proof.
  unfold wrap64; two64. exists (x / 18446744073709551616).
  pose proof (Z.div_mod x 18446744073709551616). lia.
Qed.


Lemma wrap64_apart_neq n p q i j :
  apart n p q -> 0 <= i < n -> 0 <= j < n -> wrap64 (q + i) <> wrap64 (p + j).
Proof.
  unfold apart. intros [H1 H2] Hi Hj E.
  apply wrap64_eq_diff in E as [k E].
  destruct (wrap64_decompose (q - p)) as [d Hd].
  two64. set (r := wrap64 (q - p)) in *. clearbody r.
  assert (r + i - j = 18446744073709551616 * (k - d)) by lia.
  lia.
Qed.

Lemma wrap64_offsets_neq a i j :
  i <> j -> - 2 ^ 64 < i - j < 2 ^ 64 -> wrap64 (a + i) <> wrap64 (a + j).
Proof. intros N H E. apply wrap64_eq_diff in E as [k E]. two64. lia. Qed.

(** Two ways to establish [apart]: [q] lies [d] bytes above [p], or
    [d] bytes below it. *)
Lemma apart_above n p q :
  n <= q - p <= 2 ^ 64 - n -> 0 < n -> apart n p q.
Proof.
  intros H Hn. unfold apart.
  rewrite wrap64_small; two64; lia.
Qed.

Lemma apart_below n p q :
  n <= p - q <= 2 ^ 64 - n -> 0 < n -> apart n p q.
Proof.
  intros H Hn. unfold apart.
  rewrite (wrap64_unique (q - p) (-1) (2 ^ 64 - (p - q))); two64; lia.
Qed.

Lemma apart_shift n n' p q o o' :
  apart n p q -> 0 < n' -> n' - n <= o' - o <= n - n' ->
  apart n' (p + o) (q + o').
Proof.
  unfold apart. intros [H1 H2] Hn Ho.
  destruct (wrap64_decompose (q - p)) as [k Hk].
  rewrite (wrap64_unique (q + o' - (p + o)) k (wrap64 (q - p) + (o' - o)));
    two64; lia.
Qed.


(** ** Byte-level memory *)

Module MemFacts.
Import Mem.

Lemma store8_same m a v : store8 m a v (wrap64 a) = v mod 256.
Proof. unfold store8; now rewrite Z.eqb_refl. Qed.

Lemma store8_other m a v x : x <> wrap64 a -> store8 m a v x = m x.
Proof. unfold store8; intros H; now apply Z.eqb_neq in H as ->. Qed.

Lemma store_le_other n : forall m a v x,
  (forall k, 0 <= k < Z.of_nat n -> x <> wrap64 (a + k)) ->
  store_le n m a v x = m x.
Proof.
  induction n as [|n IH]; intros m a v x H; cbn [store_le]; [reflexivity|].
  rewrite IH.
  - apply store8_other. rewrite <- (Z.add_0_r a). apply H; lia.
  - intros k Hk. replace (a + 1 + k) with (a + (k + 1)) by lia.
    apply H; lia.
Qed.

Lemma load_le_ext n : forall m1 m2 a,
  (forall k, 0 <= k < Z.of_nat n -> m1 (wrap64 (a + k)) = m2 (wrap64 (a + k))) ->
  load_le n m1 a = load_le n m2 a.
Proof.
  induction n as [|n IH]; intros m1 m2 a H; cbn [load_le]; [reflexivity|].
  assert (E0 : m1 (wrap64 a) = m2 (wrap64 a)).
  { specialize (H 0). rewrite Z.add_0_r in H. apply H; lia. }
  unfold load8. rewrite E0.
  rewrite (IH m1 m2 (a + 1)); [reflexivity|].
  intros k Hk. replace (a + 1 + k) with (a + (k + 1)) by lia. apply H; lia.
Qed.

Lemma load_le_range n : forall m a, 0 <= load_le n m a < 256 ^ Z.of_nat n.
Proof.
  induction n as [|n IH]; intros m a.
  - simpl; lia.
  - rewrite Nat2Z.inj_succ, Z.pow_succ_r by lia. cbn [load_le].
    specialize (IH m (a + 1)). unfold load8.
    assert (0 <= m (wrap64 a) mod 256 < 256) by (apply Z.mod_pos_bound; lia).
    lia.
Qed.

Lemma load_store_le_same n : forall m a v,
  Z.of_nat n < 2 ^ 64 ->
  load_le n (store_le n m a v) a = v mod 256 ^ Z.of_nat n.
Proof.
  induction n as [|n IH]; intros m a v Hn.
  - simpl. now rewrite Z.mod_1_r.
  - rewrite Nat2Z.inj_succ, Z.pow_succ_r by lia.
    cbn [load_le store_le].
    rewrite IH by lia.
    unfold load8. rewrite store_le_other.
    + rewrite store8_same, Z.mod_mod by lia.
      rewrite Z.rem_mul_r by lia. reflexivity.
    + intros k Hk. replace (a + 1 + k) with (a + (k + 1)) by lia.
      rewrite <- (Z.add_0_r a) at 1.
      apply wrap64_offsets_neq; lia.
Qed.

Lemma load64_range m a : 0 <= load64 m a < 2 ^ 64.
Proof. apply (load_le_range 8). Qed.

Lemma load64_store64_same m a v :
  uint64 v -> load64 (store64 m a v) a = v.
Proof.
  intros Hv. unfold load64, store64.
  rewrite load_store_le_same by (simpl; lia).
  apply Z.mod_small. exact Hv.
Qed.

(** A 64-bit store changes only its own eight bytes. *)
Lemma store64_other m a v x :
  (forall k, 0 <= k < 8 -> x <> wrap64 (a + k)) -> store64 m a v x = m x.
Proof. intros H. apply (store_le_other 8). exact H. Qed.

Lemma load64_store64_other m a v b :
  apart 8 a b -> load64 (store64 m a v) b = load64 m b.
Proof.
  intros H. apply (load_le_ext 8). intros k Hk.
  apply store64_other. intros j Hj.
  apply wrap64_apart_neq with (n := 8); [exact H | lia | lia].
Qed.

End MemFacts.

(** ** Records in memory *)

Lemma read_write_alloc_same m p r :
  alloc_in_range r -> read_alloc (write_alloc m p r) p = r.
Proof.
  intros (Ha & Hs & Hr). destruct r as [a s rv].
  cbn [alloc_addr alloc_size alloc_reserved] in *.
  unfold read_alloc, write_alloc; cbn [alloc_addr alloc_size alloc_reserved].
  assert (A1 : apart 8 (p + off_reserved) (p + off_addr))
    by (apply apart_below; unfold off_reserved, off_addr; two64; lia).
  assert (A2 : apart 8 (p + off_size) (p + off_addr))
    by (apply apart_below; unfold off_size, off_addr; two64; lia).
  assert (A3 : apart 8 (p + off_reserved) (p + off_size))
    by (apply apart_below; unfold off_reserved, off_size; two64; lia).
  f_equal.
  - rewrite (MemFacts.load64_store64_other _ _ _ _ A1).
    rewrite (MemFacts.load64_store64_other _ _ _ _ A2).
    now apply MemFacts.load64_store64_same.
  - rewrite (MemFacts.load64_store64_other _ _ _ _ A3).
    now apply MemFacts.load64_store64_same.
  - now apply MemFacts.load64_store64_same.
Qed.

(** Writing a record changes only its own 24 bytes. *)
Lemma write_alloc_other_byte m p r x :
  (forall k, 0 <= k < 24 -> x <> wrap64 (p + k)) -> write_alloc m p r x = m x.
Proof.
  intros H. unfold write_alloc, off_addr, off_size, off_reserved.
  rewrite !MemFacts.store64_other; [reflexivity | | |];
    intros k Hk; rewrite <- Z.add_assoc; apply H; lia.
Qed.

Lemma read_write_alloc_other m p r q :
  apart 24 p q -> read_alloc (write_alloc m p r) q = read_alloc m q.
Proof.
  intros H. unfold read_alloc, write_alloc.
  f_equal;
    rewrite !MemFacts.load64_store64_other; try reflexivity;
    apply (apart_shift 24); try exact H;
    unfold off_addr, off_size, off_reserved; lia.
Qed.

(** ** Page rounding *)

Lemma round_boundary_range size : uint64 size -> uint64 (round_boundary size).
Proof.
  intros H. unfold round_boundary.
  destruct (negb _); [apply wrap64_range | exact H].
Qed.


Lemma round_boundary_zero : round_boundary 0 = 0.
Proof. reflexivity. Qed.

Lemma round_boundary_page size :
  0 < size <= 4096 -> round_boundary size = 4096.
Proof.
  intros H. unfold round_boundary, BOUNDARY.
  destruct (Z.eq_dec size 4096) as [-> | Hne]; [reflexivity|].
  rewrite (Z.mod_small size 4096) by lia.
  destruct (Z.eqb_spec size 0); [lia|]. cbn [negb].
  replace (size + (4096 - size)) with 4096 by lia. reflexivity.
Qed.

Lemma round_boundary_wraps size :
  2 ^ 64 - 4096 < size < 2 ^ 64 -> size mod 4096 <> 0 ->
  round_boundary size = 0.
Proof.
  intros H Hm. unfold round_boundary, BOUNDARY.
  apply Z.eqb_neq in Hm as Hb. rewrite Hb; cbn [negb].
  assert (Hr : 0 <= size mod 4096 < 4096) by (apply Z.mod_pos_bound; lia).
  pose proof (Z.div_mod size 4096 ltac:(lia)) as Hd.
  set (q := size / 4096) in *. set (r := size mod 4096) in *.
  two64.
  assert (Hq : q = 4503599627370495) by lia.
  apply (wrap64_unique _ 1 0); two64; lia.
Qed.

(** ** The bubble sort on lists terminates and sorts *)

Lemma bubble_ascending_id t : forall x,
  ascending (x :: t) -> bubble x t = (x :: t, false).
Proof.
  induction t as [|y t IH]; intros x H; cbn [bubble]; [reflexivity|].
  apply StronglySorted_inv in H as [Ht Hx].
  inversion Hx as [|? ? Hxy Hxt]; subst. unfold addr_le in Hxy.
  destruct (alloc_addr x >? alloc_addr y) eqn:E; [lia|].
  now rewrite (IH y Ht).
Qed.

Lemma bubble_quiet_ascending t : forall x,
  snd (bubble x t) = false -> fst (bubble x t) = x :: t /\ ascending (x :: t).
Proof.
  induction t as [|y t IH]; intros x H; cbn [bubble] in *.
  - split; [reflexivity|]. repeat constructor.
  - destruct (alloc_addr x >? alloc_addr y) eqn:E; cbn [fst snd] in *;
      [discriminate|].
    destruct (IH y H) as [Hf Hs]. rewrite Hf. split; [reflexivity|].
    constructor; [exact Hs|].
    apply StronglySorted_inv in Hs as [_ Hy].
    constructor; [unfold addr_le; lia|].
    eapply Forall_impl; [|exact Hy]. unfold addr_le. intros; lia.
Qed.

(** A pass carries the record with the greatest address to the end. *)
Lemma bubble_max_last t : forall x,
  exists r mx,
    fst (bubble x t) = r ++ [mx] /\
    Permutation (x :: t) (r ++ [mx]) /\
    Forall (fun y => addr_le y mx) (x :: t).
Proof.
  induction t as [|y t IH]; intros x; cbn [bubble].
  - exists [], x. repeat split; [reflexivity | constructor; [|constructor]].
    unfold addr_le; lia.
  - destruct (alloc_addr x >? alloc_addr y) eqn:E; cbn [fst].
    + destruct (IH x) as (r & mx & Hf & Hp & Hall).
      exists (y :: r), mx. rewrite Hf. split; [reflexivity|]. split.
      * rewrite perm_swap. cbn. now constructor.
      * inversion Hall as [|? ? Hx Ht]; subst.
        constructor; [exact Hx|]. constructor; [|exact Ht].
        unfold addr_le in *. lia.
    + destruct (IH y) as (r & mx & Hf & Hp & Hall).
      exists (x :: r), mx. rewrite Hf. split; [reflexivity|]. split.
      * cbn. now constructor.
      * inversion Hall as [|? ? Hy Ht]; subst.
        constructor; [|exact Hall]. unfold addr_le in *. lia.
Qed.

(** A pass does not touch an ascending tail that dominates the rest. *)
Lemma bubble_app_ascending s t : forall x,
  ascending s ->
  (forall a, In a (x :: t) -> Forall (addr_le a) s) ->
  bubble x (t ++ s) = (fst (bubble x t) ++ s, snd (bubble x t)).
Proof.
  induction t as [|y t IH]; intros x Hs Hdom.
  - cbn [app bubble fst snd]. apply bubble_ascending_id.
    constructor; [exact Hs|]. apply Hdom. now left.
  - cbn [app bubble].
    destruct (alloc_addr x >? alloc_addr y) eqn:E.
    + rewrite (IH x Hs); [reflexivity|].
      intros a [<- | Ha]; apply Hdom; [now left | now right; right].
    + rewrite (IH y Hs); [reflexivity|].
      intros a Ha. apply Hdom. now right.
Qed.

Lemma ascending_app l s :
  ascending l -> ascending s ->
  (forall a, In a l -> Forall (addr_le a) s) -> ascending (l ++ s).
Proof.
  induction l as [|x l IH]; intros Hl Hs Hdom; [exact Hs|].
  apply StronglySorted_inv in Hl as [Hl Hx]. cbn.
  constructor.
  - apply IH; auto. intros a Ha. apply Hdom. now right.
  - apply Forall_app. split; [exact Hx | apply Hdom; now left].
Qed.

(** With [k] records in front of an ascending, dominating tail, [k + 1]
    passes are enough. *)
Lemma bubble_loop_terminates k : forall l s,
  length l = k -> ascending s ->
  (forall a, In a l -> Forall (addr_le a) s) ->
  exists r, bubble_loop (S k) (l ++ s) = Some r /\
            ascending r /\ Permutation (l ++ s) r.
Proof.
  induction k as [|k IH]; intros l s Hlen Hs Hdom.
  - destruct l; [|discriminate]. exists s. cbn [app bubble_loop].
    split; [|split; [exact Hs | reflexivity]].
    destruct s as [|x t]; [reflexivity|]. cbn [bubble_pass].
    now rewrite (bubble_ascending_id t x Hs).
  - destruct l as [|x t]; [discriminate|].
    cbn [bubble_loop]. change ((x :: t) ++ s) with (x :: (t ++ s)).
    cbn [bubble_pass]. rewrite (bubble_app_ascending s t x Hs Hdom).
    destruct (snd (bubble x t)) eqn:Hflag.
    + destruct (bubble_max_last t x) as (r & mx & Hf & Hp & Hall).
      rewrite Hf, <- app_assoc. cbn [app].
      assert (Hmx : In mx (x :: t)).
      { eapply Permutation_in; [symmetry; exact Hp|].
        apply in_or_app. right. now left. }
      assert (Hr : forall a, In a r -> In a (x :: t)).
      { intros a Ha. eapply Permutation_in; [symmetry; exact Hp|].
        apply in_or_app. now left. }
      destruct (IH r (mx :: s)) as (res & Hres & Hasc & Hperm).
      * apply Permutation_length in Hp. rewrite length_app in Hp.
        cbn in Hp, Hlen. lia.
      * constructor; [exact Hs | now apply Hdom].
      * intros a Ha. constructor; [|now apply Hdom, Hr].
        rewrite Forall_forall in Hall. now apply Hall, Hr.
      * exists res. split; [exact Hres|]. split; [exact Hasc|].
        rewrite <- Hperm.
        change (x :: t ++ s) with ((x :: t) ++ s).
        rewrite Hp, <- app_assoc. reflexivity.
    + destruct (bubble_quiet_ascending t x Hflag) as [Hf Hasc].
      rewrite Hf. exists ((x :: t) ++ s).
      split; [reflexivity|]. split; [|reflexivity].
      now apply ascending_app.
Qed.

Theorem bubble_loop_sorts l :
  exists r, bubble_loop (S (length l)) l = Some r /\
            ascending r /\ Permutation l r.
Proof.
  destruct (bubble_loop_terminates (length l) l [] eq_refl) as (r & H).
  - constructor.
  - intros; constructor.
  - rewrite app_nil_r in H. now exists r.
Qed.

(** ** The table in memory as a list of records *)

Lemma read_alloc_in_range m p : alloc_in_range (read_alloc m p).
Proof. repeat split; apply MemFacts.load64_range. Qed.

Lemma length_live_records map m :
  length (live_records map m) = Z.to_nat (alloc_count map).
Proof. unfold live_records. now rewrite length_map, length_seq. Qed.

Lemma live_records_nth_error map m n :
  nth_error (live_records map m) n =
    if (n <? Z.to_nat (alloc_count map))%nat
    then Some (read_alloc m (entry map (Z.of_nat n))) else None.
Proof.
  unfold live_records. rewrite nth_error_map, nth_error_seq.
  now destruct (n <? _)%nat.
Qed.

Lemma live_records_nth map m k :
  0 <= k < alloc_count map ->
  nth_error (live_records map m) (Z.to_nat k) = Some (read_alloc m (entry map k)).
Proof.
  intros Hk. rewrite live_records_nth_error.
  destruct (Nat.ltb_spec (Z.to_nat k) (Z.to_nat (alloc_count map))); [|lia].
  now rewrite Z2Nat.id by lia.
Qed.

Lemma nth_error_middle {A : Type} (l1 l2 : list A) (r r0 : A) n :
  nth_error (l1 ++ r :: l2) n =
    if (n =? length l1)%nat then Some r else nth_error (l1 ++ r0 :: l2) n.
Proof.
  destruct (Nat.eqb_spec n (length l1)) as [-> | Hn].
  - rewrite nth_error_app2, Nat.sub_diag by lia. reflexivity.
  - destruct (Nat.lt_ge_cases n (length l1)).
    + now rewrite !nth_error_app1 by lia.
    + rewrite !nth_error_app2 by lia.
      destruct (n - length l1)%nat eqn:E; [lia | reflexivity].
Qed.

Section TableInMemory.

Variable map : pure64_map.
Hypothesis Hfit : table_fits map.

Lemma entry_fits i :
  0 <= i < alloc_count map ->
  entry map i = alloc_table map + i * sizeof_pure64_alloc /\
  0 < entry map i /\ entry map i + sizeof_pure64_alloc <= 2 ^ 64.
Proof.
  pose proof Hfit as (Ht & Hc & Hend).
  unfold entry, sizeof_pure64_alloc in *. intros Hi.
  rewrite wrap64_small; two64; lia.
Qed.

Lemma entries_apart i j :
  0 <= i < alloc_count map -> 0 <= j < alloc_count map -> i <> j ->
  apart 24 (entry map i) (entry map j).
Proof.
  intros Hi Hj Hij.
  destruct (entry_fits i Hi) as (Ei & _ & _).
  destruct (entry_fits j Hj) as (Ej & _ & _).
  rewrite Ei, Ej. pose proof Hfit as (Ht & Hc & Hend).
  unfold sizeof_pure64_alloc in *.
  assert (Hcase : i < j \/ j < i) by lia.
  destruct Hcase; [apply apart_above | apply apart_below]; two64; lia.
Qed.

(** Writing slot [length l1] replaces that live record and no other. *)
Lemma live_records_write m l1 r0 l2 r :
  alloc_in_range r ->
  live_records map m = l1 ++ r0 :: l2 ->
  live_records map (write_alloc m (entry map (Z.of_nat (length l1))) r)
    = l1 ++ r :: l2.
Proof.
  intros Hr Hl.
  assert (Hlen : length (l1 ++ r0 :: l2) = Z.to_nat (alloc_count map))
    by (rewrite <- Hl; apply length_live_records).
  rewrite length_app in Hlen; cbn [length] in Hlen.
  apply nth_error_ext. intros n.
  rewrite (nth_error_middle l1 l2 r r0 n), <- Hl, !live_records_nth_error.
  destruct (Nat.eqb_spec n (length l1)) as [-> | Hn].
  - destruct (Nat.ltb_spec (length l1) (Z.to_nat (alloc_count map))); [|lia].
    now rewrite read_write_alloc_same.
  - destruct (Nat.ltb_spec n (Z.to_nat (alloc_count map))); [|reflexivity].
    rewrite read_write_alloc_other; [reflexivity|].
    apply entries_apart; lia.
Qed.

Lemma write_alloc_outside_table m k r x :
  0 <= k < alloc_count map -> ~ in_table map x ->
  write_alloc m (entry map k) r x = m x.
Proof.
  intros Hk Hx. apply write_alloc_other_byte. intros j Hj.
  destruct (entry_fits k Hk) as (Ek & Hpos & Hend).
  unfold in_table, sizeof_pure64_alloc in *.
  rewrite wrap64_small by (two64; lia). lia.
Qed.

(** The [for] loop of [sort_alloc_table] from slot [length pre] on is
    [bubble] on the records: same swaps, same flag, and no byte outside the
    table is written. *)
Lemma sort_pass_refines : forall rest pre x m flag,
  live_records map m = pre ++ x :: rest ->
  exists m',
    sort_pass (length rest) (Z.of_nat (length pre)) map m flag
      = (m', flag || snd (bubble x rest)) /\
    live_records map m' = pre ++ fst (bubble x rest) /\
    (forall a, ~ in_table map a -> m' a = m a).
Proof.
  induction rest as [|y t IH]; intros pre x m flag Hl.
  - exists m. cbn [length sort_pass bubble fst snd].
    rewrite orb_false_r. auto.
  - assert (Hlen : length (pre ++ x :: y :: t) = Z.to_nat (alloc_count map))
      by (rewrite <- Hl; apply length_live_records).
    rewrite length_app in Hlen; cbn [length] in Hlen.
    assert (Hx : read_alloc m (entry map (Z.of_nat (length pre))) = x).
    { pose proof (live_records_nth_error map m (length pre)) as E.
      rewrite Hl, nth_error_app2, Nat.sub_diag in E by lia.
      cbn [nth_error] in E.
      destruct (Nat.ltb_spec (length pre) (Z.to_nat (alloc_count map)));
        [congruence | lia]. }
    assert (Hy : read_alloc m (entry map (Z.of_nat (length pre) + 1)) = y).
    { pose proof (live_records_nth_error map m (S (length pre))) as E.
      rewrite Hl, nth_error_app2 in E by lia.
      replace (S (length pre) - length pre)%nat with 1%nat in E by lia.
      cbn [nth_error] in E.
      destruct (Nat.ltb_spec (S (length pre)) (Z.to_nat (alloc_count map)));
        [|lia].
      replace (Z.of_nat (length pre) + 1) with (Z.of_nat (S (length pre)))
        by lia.
      congruence. }
    cbn [length sort_pass bubble].
    change (Mem.load64 m (entry map (Z.of_nat (length pre)) + off_addr))
      with (alloc_addr (read_alloc m (entry map (Z.of_nat (length pre))))).
    change (Mem.load64 m (entry map (Z.of_nat (length pre) + 1) + off_addr))
      with (alloc_addr (read_alloc m (entry map (Z.of_nat (length pre) + 1)))).
    rewrite Hx, Hy.
    destruct (alloc_addr x >? alloc_addr y) eqn:E.
    + (* swap *)
      set (m1 := write_alloc m (entry map (Z.of_nat (length pre))) y).
      assert (H1 : live_records map m1 = pre ++ y :: y :: t).
      { apply (live_records_write m pre x (y :: t) y); [|exact Hl].
        rewrite <- Hy. apply read_alloc_in_range. }
      set (m2 := write_alloc m1 (entry map (Z.of_nat (length pre) + 1)) x).
      assert (H2 : live_records map m2 = (pre ++ [y]) ++ x :: t).
      { unfold m2.
        replace (Z.of_nat (length pre) + 1)
          with (Z.of_nat (length (pre ++ [y])))
          by (rewrite length_app; cbn [length]; lia).
        apply (live_records_write m1 (pre ++ [y]) y t x).
        - rewrite <- Hx. apply read_alloc_in_range.
        - rewrite <- app_assoc. exact H1. }
      destruct (IH (pre ++ [y]) x m2 true H2) as (m' & Hrun & Hrec & Hframe).
      exists m'. rewrite length_app in Hrun; cbn [length] in Hrun.
      replace (Z.of_nat (length pre + 1)) with (Z.of_nat (length pre) + 1)
        in Hrun by lia.
      cbn [orb] in Hrun. rewrite orb_true_r.
      split; [exact Hrun|]. split.
      * rewrite Hrec, <- app_assoc. reflexivity.
      * intros a Ha. rewrite (Hframe a Ha). unfold m2, m1.
        rewrite !write_alloc_outside_table; auto; lia.
    + (* no swap *)
      assert (H2 : live_records map m = (pre ++ [x]) ++ y :: t)
        by (now rewrite <- app_assoc).
      destruct (IH (pre ++ [x]) y m flag H2) as (m' & Hrun & Hrec & Hframe).
      exists m'. rewrite length_app in Hrun; cbn [length] in Hrun.
      replace (Z.of_nat (length pre + 1)) with (Z.of_nat (length pre) + 1)
        in Hrun by lia.
      split; [exact Hrun|]. split; [|exact Hframe].
      rewrite Hrec, <- app_assoc. reflexivity.
Qed.

Lemma sort_pass_whole m :
  exists m',
    sort_pass (Z.to_nat (alloc_count map - 1)) 0 map m false
      = (m', snd (bubble_pass (live_records map m))) /\
    live_records map m' = fst (bubble_pass (live_records map m)) /\
    (forall a, ~ in_table map a -> m' a = m a).
Proof.
  pose proof (length_live_records map m) as Hlen.
  destruct (live_records map m) as [|x rest] eqn:Hl.
  - cbn in Hlen. replace (Z.to_nat (alloc_count map - 1)) with 0%nat by lia.
    exists m. cbn. now rewrite Hl.
  - cbn [length] in Hlen.
    replace (Z.to_nat (alloc_count map - 1)) with (length rest) by lia.
    destruct (sort_pass_refines rest [] x m false Hl)
      as (m' & Hrun & Hrec & Hframe).
    exists m'. cbn [bubble_pass]. auto.
Qed.

Lemma sort_loop_refines : forall fuel m r,
  bubble_loop fuel (live_records map m) = Some r ->
  exists m', sort_loop fuel map m = Some m' /\
             live_records map m' = r /\
             (forall a, ~ in_table map a -> m' a = m a).
Proof.
  induction fuel as [|fuel IH]; intros m r H; [discriminate|].
  cbn [bubble_loop sort_loop] in *.
  destruct (sort_pass_whole m) as (m1 & Hrun & Hrec & Hframe).
  rewrite Hrun.
  destruct (bubble_pass (live_records map m)) as [l' flag]; cbn [fst snd] in *.
  destruct flag.
  - rewrite <- Hrec in H. destruct (IH m1 r H) as (m' & Hs & Hr & Hf).
    exists m'. split; [exact Hs|]. split; [exact Hr|].
    intros a Ha. now rewrite (Hf a Ha), (Hframe a Ha).
  - inversion H; subst. exists m1. auto.
Qed.

(** [sort_alloc_table] returns (the bound on the passes is never reached):
    it leaves the live records ascending by address, a permutation of what
    they were, and writes no byte outside the table. *)
Theorem sort_alloc_table_sorts m :
  exists m', sort_alloc_table map m = Some m' /\
             ascending (live_records map m') /\
             Permutation (live_records map m) (live_records map m') /\
             (forall a, ~ in_table map a -> m' a = m a).
Proof.
  unfold sort_alloc_table.
  destruct (bubble_loop_sorts (live_records map m)) as (r & Hr & Hasc & Hperm).
  rewrite length_live_records in Hr.
  destruct (sort_loop_refines _ m r Hr) as (m' & Hs & Hrec & Hframe).
  exists m'. rewrite Hrec. auto.
Qed.

(** *** Every call returns *)

Lemma realloc_block_returns m addr size :
  exists r, realloc_block map m addr size = Some r.
Proof.
  unfold realloc_block.
  destruct (_ =? NULL); [eauto|].
  destruct (_ >=? _); [eauto|].
  destruct (_ =? NULL); [eauto|].
  match goal with
  | |- context [sort_alloc_table map ?mem] =>
      destruct (sort_alloc_table_sorts mem) as (m' & -> & _)
  end.
  eauto.
Qed.

Lemma malloc_returns m size :
  exists r, pure64_map_malloc map m size = Some r.
Proof.
  unfold pure64_map_malloc, append_alloc.
  destruct (_ =? NULL); [eauto|].
  destruct (_ =? NULL); [eauto|].
  match goal with
  | |- context [realloc_block ?a ?b ?c ?d] =>
      destruct (realloc_block_returns b c d) as ([[tbl mp] m1] & ->)
  end.
  destruct (tbl =? NULL); cbn [negb Z.eqb]; eauto.
Qed.

Lemma realloc_returns m addr size :
  exists r, pure64_map_realloc map m addr size = Some r.
Proof.
  unfold pure64_map_realloc.
  destruct (addr =? NULL);
    [apply malloc_returns | apply realloc_block_returns].
Qed.

Lemma free_returns m addr :
  exists r, pure64_map_free map m addr = Some r.
Proof.
  unfold pure64_map_free.
  destruct (addr =? NULL); [eauto|].
  destruct (_ =? NULL); [eauto|].
  match goal with
  | |- context [sort_alloc_table map ?mem] =>
      destruct (sort_alloc_table_sorts mem) as (m' & -> & _)
  end.
  eauto.
Qed.

End TableInMemory.

(** ** Lookup *)

Lemma find_alloc_loop_miss n : forall i map m addr,
  (forall k, 0 <= k < Z.of_nat n ->
             Mem.load64 m (entry map (i + k) + off_addr) <> addr) ->
  find_alloc_loop n i map m addr = NULL.
Proof.
  induction n as [|n IH]; intros i map m addr H; cbn [find_alloc_loop];
    [reflexivity|].
  destruct (_ =? addr) eqn:E.
  - apply Z.eqb_eq in E. exfalso. apply (H 0); [lia|].
    replace (i + 0) with i by lia. exact E.
  - apply IH. intros k Hk.
    replace (i + 1 + k) with (i + (k + 1)) by lia. apply H; lia.
Qed.

Lemma find_alloc_entry_unknown map m addr :
  (forall r, In r (live_records map m) -> alloc_addr r <> addr) ->
  find_alloc_entry map m addr = NULL.
Proof.
  intros H. apply find_alloc_loop_miss. intros k Hk.
  apply (H (read_alloc m (entry map (0 + k)))).
  eapply nth_error_In. rewrite Z.add_0_l. apply live_records_nth. lia.
Qed.

Lemma find_alloc_loop_hit n : forall i j map m addr,
  0 <= j < Z.of_nat n ->
  Mem.load64 m (entry map (i + j) + off_addr) = addr ->
  (forall k, 0 <= k < j ->
             Mem.load64 m (entry map (i + k) + off_addr) <> addr) ->
  find_alloc_loop n i map m addr = entry map (i + j).
Proof.
  induction n as [|n IH]; intros i j map m addr Hj Hhit Hfirst; [lia|].
  cbn [find_alloc_loop].
  destruct (Z.eq_dec j 0) as [-> | Hj0].
  - replace (i + 0) with i in * by lia.
    apply Z.eqb_eq in Hhit. now rewrite Hhit.
  - assert (Hi : Mem.load64 m (entry map i + off_addr) <> addr).
    { replace i with (i + 0) by lia. apply Hfirst; lia. }
    apply Z.eqb_neq in Hi. rewrite Hi.
    replace (i + j) with (i + 1 + (j - 1)) in * by lia.
    apply IH; [lia | exact Hhit |].
    intros k Hk. replace (i + 1 + k) with (i + (k + 1)) by lia.
    apply Hfirst; lia.
Qed.

(** ** Placement returns a 64-bit address *)

Lemma scan_allocs_range n : forall i map m size addr2 size2 addr,
  uint64 addr -> uint64 (snd (scan_allocs n i map m size addr2 size2 addr)).
Proof.
  induction n as [|n IH]; intros i map m size addr2 size2 addr H;
    cbn [scan_allocs]; [exact H|].
  destruct (_ && _).
  - destruct (_ >=? _); [apply wrap64_range | apply IH, wrap64_range].
  - now apply IH.
Qed.

Lemma find_suitable_loop_range cursor map m size :
  fw_in_range cursor -> uint64 (find_suitable_loop cursor map m size).
Proof.
  induction 1 as [|ent next [Ha Hs] Hnext IH]; cbn [find_suitable_loop].
  - unfold NULL, uint64; two64; lia.
  - destruct (negb _); [exact IH|].
    destruct (_ <? _); [exact IH|].
    pose proof (scan_allocs_range (Z.to_nat (alloc_count map)) 0 map m size
                  (e820_addr ent) (e820_size ent) (e820_addr ent) Ha) as Hr.
    destruct (scan_allocs _ _ _ _ _ _ _ _) as [i addr]; cbn [snd] in Hr.
    destruct (_ <? _); [exact IH | exact Hr].
Qed.

Lemma find_suitable_addr_range map m size :
  fw_in_range (e820 map) -> uint64 (find_suitable_addr map m size).
Proof. apply find_suitable_loop_range. Qed.

(** ** Failing calls leave everything as it was *)

Lemma realloc_block_map map m addr size p map' m' :
  realloc_block map m addr size = Some (p, map', m') -> map' = map.
Proof.
  unfold realloc_block.
  repeat match goal with
         | |- context [if ?c then _ else _] => destruct c
         | |- context [match ?c with Some _ => _ | None => _ end] => destruct c
         end; intros E; inversion E; reflexivity.
Qed.

Lemma realloc_block_null map m addr size p map' m' :
  addr <> NULL ->
  realloc_block map m addr size = Some (p, map', m') -> p = NULL ->
  map' = map /\ m' = m.
Proof.
  intros Hnn. unfold realloc_block.
  destruct (find_alloc_entry map m addr =? NULL);
    [intros E; inversion E; auto|].
  destruct (_ >=? _); [intros E; inversion E; congruence|].
  destruct (find_suitable_addr map m size =? NULL) eqn:Hf;
    [intros E; inversion E; auto|].
  destruct (sort_alloc_table _ _); [|discriminate].
  intros E Hp; inversion E; subst.
  apply Z.eqb_neq in Hf; congruence.
Qed.

Lemma malloc_null map m size p map' m' :
  pure64_map_malloc map m size = Some (p, map', m') -> p = NULL ->
  map' = map /\ m' = m.
Proof.
  unfold pure64_map_malloc.
  destruct (alloc_table map =? NULL) eqn:Ht; [intros E; inversion E; auto|].
  destruct (find_suitable_addr map m (round_boundary size) =? NULL) eqn:Hf;
    [intros E; inversion E; auto|].
  unfold append_alloc.
  destruct (realloc_block _ _ _ _) as [[[tbl map1] m1]|] eqn:R; [|discriminate].
  destruct (tbl =? NULL) eqn:Htbl; cbn [negb Z.eqb].
  - apply Z.eqb_eq in Htbl. apply Z.eqb_neq in Ht.
    destruct (realloc_block_null _ _ _ _ _ _ _ Ht R Htbl) as [-> ->].
    intros E; inversion E; auto.
  - intros E Hp; inversion E; subst. apply Z.eqb_neq in Hf; congruence.
Qed.

Lemma realloc_null map m addr size p map' m' :
  pure64_map_realloc map m addr size = Some (p, map', m') -> p = NULL ->
  map' = map /\ m' = m.
Proof.
  unfold pure64_map_realloc. destruct (addr =? NULL) eqn:Ha.
  - apply malloc_null.
  - apply Z.eqb_neq in Ha. now apply realloc_block_null.
Qed.

(** ** What a successful allocation appends *)

Lemma malloc_appends map m size p map' m' :
  uint64 size -> fw_in_range (e820 map) ->
  pure64_map_malloc map m size = Some (p, map', m') -> p <> NULL ->
  last_record map' m' = mk_alloc p size (round_boundary size) /\
  alloc_count map' = wrap64 (alloc_count map + 1) /\
  p = find_suitable_addr map m (round_boundary size).
Proof.
  intros Hsize Hfw. unfold pure64_map_malloc.
  destruct (alloc_table map =? NULL); [intros E; inversion E; congruence|].
  pose proof (find_suitable_addr_range map m (round_boundary size) Hfw) as Hp.
  set (addr := find_suitable_addr map m (round_boundary size)) in *.
  destruct (addr =? NULL); [intros E; inversion E; congruence|].
  unfold append_alloc.
  destruct (realloc_block _ _ _ _) as [[[tbl map1] m1]|] eqn:R; [|discriminate].
  apply realloc_block_map in R as ->.
  destruct (tbl =? NULL); cbn [negb Z.eqb].
  - intros E; inversion E; congruence.
  - intros E Hnn; inversion E; subst p map' m'; clear E.
    split; [|split; reflexivity].
    unfold last_record. cbn [set_table alloc_count].
    apply read_write_alloc_same.
    repeat split; cbn [alloc_addr alloc_size alloc_reserved];
      try apply Hp; try apply Hsize; apply round_boundary_range, Hsize.
Qed.

(** The same with the return of the call made explicit. *)
Lemma malloc_returns_and_appends map m size :
  table_fits map -> uint64 size -> fw_in_range (e820 map) ->
  exists p map' m',
    pure64_map_malloc map m size = Some (p, map', m') /\
    (p <> NULL ->
     last_record map' m' = mk_alloc p size (round_boundary size) /\
     alloc_count map' = wrap64 (alloc_count map + 1) /\
     p = find_suitable_addr map m (round_boundary size)).
Proof.
  intros Hfit Hu Hfw.
  destruct (malloc_returns map Hfit m size) as ([[p map'] m'] & E).
  exists p, map', m'. split; [exact E|].
  now apply malloc_appends.
Qed.


(** The successful path of [pure64_map_malloc], step by step. *)
Lemma malloc_success_path map m size addr tbl m1 :
  alloc_table map <> NULL ->
  find_suitable_addr map m (round_boundary size) = addr -> addr <> NULL ->
  realloc_block map m (alloc_table map)
    (wrap64 (wrap64 (alloc_count map + 1) * sizeof_pure64_alloc))
    = Some (tbl, map, m1) ->
  tbl <> NULL ->
  let map' := set_table map tbl (wrap64 (alloc_count map + 1)) in
  pure64_map_malloc map m size =
    Some (addr, map',
          write_alloc m1 (entry map' (wrap64 (alloc_count map' - 1)))
                      (mk_alloc addr size (round_boundary size))).
Proof.
  intros Ht Hf Ha R Htbl map'. unfold pure64_map_malloc, append_alloc.
  apply Z.eqb_neq in Ht as ->. rewrite Hf.
  apply Z.eqb_neq in Ha as ->. rewrite R.
  apply Z.eqb_neq in Htbl as ->. reflexivity.
Qed.

(** Writing the last slot appends to the records before it. *)
Lemma live_records_snoc map m r :
  table_fits map -> 0 < alloc_count map -> alloc_in_range r ->
  live_records map
    (write_alloc m (entry map (alloc_count map - 1)) r)
  = live_records (set_count map (alloc_count map - 1)) m ++ [r].
Proof.
  intros Hfit Hc Hr.
  apply nth_error_ext. intros n.
  rewrite live_records_nth_error.
  assert (Hlen : length (live_records (set_count map (alloc_count map - 1)) m)
                 = Z.to_nat (alloc_count map - 1))
    by (rewrite length_live_records; reflexivity).
  destruct (Nat.ltb_spec n (Z.to_nat (alloc_count map))) as [Hn | Hn].
  - destruct (Nat.eq_dec n (Z.to_nat (alloc_count map - 1))) as [-> | Hne].
    + rewrite nth_error_app2, Hlen, Nat.sub_diag by lia. cbn [nth_error].
      rewrite Z2Nat.id by lia. now rewrite read_write_alloc_same.
    + rewrite nth_error_app1 by lia.
      rewrite live_records_nth_error. cbn [set_count alloc_count].
      destruct (Nat.ltb_spec n (Z.to_nat (alloc_count map - 1))); [|lia].
      rewrite read_write_alloc_other; [reflexivity|].
      apply entries_apart; try exact Hfit; lia.
  - symmetry. apply nth_error_None. rewrite length_app, Hlen. cbn [length]. lia.
Qed.

(** ** Bootstrap *)

Lemma pure64_map_init_unfold fw m dsz ahci_setup :
  pure64_map_init fw m dsz ahci_setup =
    match pure64_map_malloc (fst (init_alloc_table fw m))
                            (snd (init_alloc_table fw m)) dsz with
    | None => None
    | Some (p, map, m) =>
        if negb (p =? NULL) then ahci_setup (set_driver map p) m
        else Some (set_driver map p, m)
    end.
Proof. unfold pure64_map_init. now destruct (init_alloc_table fw m). Qed.



(** ** The bootstrapped one-region map *)

Lemma boot_one_fw_in_range : fw_in_range (e820 (boot_map fw_one)).
Proof.
  repeat constructor; cbn; unfold uint64; two64; lia.
Qed.

Lemma boot_one_table_fits : table_fits (boot_map fw_one).
Proof. repeat split; vm_compute; (reflexivity || discriminate). Qed.

Lemma outcome_inv r p rec :
  outcome r = Some (p, rec) ->
  exists map m, r = Some (p, map, m) /\ last_record map m = rec.
Proof.
  destruct r as [[[p0 map] m]|]; cbn; [|discriminate].
  intros E; inversion E; subst. now exists map, m.
Qed.

Lemma some_pair_inv {A B : Type} (a a' : A) (b b' : B) :
  Some (a, b) = Some (a', b') -> a = a' /\ b = b'.
Proof. intros H; inversion H; auto. Qed.

(** The table growth of the first allocation: the table moves to [0x60030]
    and takes its two records along. *)
Lemma boot_table_growth :
  exists m1,
    realloc_block (boot_map fw_one) (boot_mem fw_one)
                  (alloc_table (boot_map fw_one))
                  (wrap64 (wrap64 (alloc_count (boot_map fw_one) + 1)
                           * sizeof_pure64_alloc))
      = Some (0x60030, boot_map fw_one, m1) /\
    live_records (set_table (boot_map fw_one) 0x60030 2) m1 =
      [mk_alloc 0 0x60000 0x60000; mk_alloc 0x60030 72 0x1000].
Proof.
  set (call := realloc_block _ _ _ _).
  assert (G : option_map
                (fun r => (fst (fst r),
                           live_records (set_table (boot_map fw_one)
                                                   (fst (fst r)) 2) (snd r)))
                call
              = Some (0x60030, [mk_alloc 0 0x60000 0x60000;
                                mk_alloc 0x60030 72 0x1000]))
    by (vm_compute; reflexivity).
  assert (M : forall r, call = Some r -> snd (fst r) = boot_map fw_one).
  { intros [[p mp] m] E. cbn [fst snd]. now apply realloc_block_map in E. }
  destruct call as [[[tbl mp] m1]|]; [|discriminate].
  specialize (M _ eq_refl). cbn [fst snd] in M. subst mp.
  cbn [option_map fst snd] in G.
  destruct (some_pair_inv _ _ _ _ G) as (Htbl & Hrec). subst tbl.
  exists m1. split; [reflexivity | exact Hrec].
Qed.

(** ** Placement *)



(** ** Relocation *)

(** ** The copy loop *)

Lemma load8_store8_same m a v : Mem.load8 (Mem.store8 m a v) a = v mod 256.
Proof.
  unfold Mem.load8. rewrite MemFacts.store8_same. apply Z.mod_mod. lia.
Qed.

Lemma load8_store8_other m a v b :
  wrap64 b <> wrap64 a -> Mem.load8 (Mem.store8 m a v) b = Mem.load8 m b.
Proof. intros H. unfold Mem.load8. now rewrite MemFacts.store8_other. Qed.

Lemma load8_mod m a : Mem.load8 m a mod 256 = Mem.load8 m a.
Proof. unfold Mem.load8. apply Z.mod_mod. lia. Qed.

(** The copy writes only the destination bytes. *)
Lemma memcpy_loop_frame n : forall m dst src i x,
  (forall k, i <= k < i + Z.of_nat n -> x <> wrap64 (dst + k)) ->
  Mem.memcpy_loop n m dst src i x = m x.
Proof.
  induction n as [|n IH]; intros m dst src i x H; cbn [Mem.memcpy_loop];
    [reflexivity|].
  rewrite IH by (intros k Hk; apply H; lia).
  apply MemFacts.store8_other. apply H. lia.
Qed.

(** A forward copy delivers the first [k] source bytes when the destination
    does not start inside them: it lies at or below the source, or at least
    [k] bytes above it. *)
Lemma memcpy_loop_prefix m0 dst src k n : forall m i,
  0 <= src -> 0 <= dst -> 0 <= i -> k <= i + Z.of_nat n ->
  src + i + Z.of_nat n <= 2 ^ 64 -> dst + i + Z.of_nat n <= 2 ^ 64 ->
  dst <= src \/ src + k <= dst ->
  (forall j, i <= j < k -> Mem.load8 m (src + j) = Mem.load8 m0 (src + j)) ->
  (forall j, 0 <= j < i -> j < k ->
             Mem.load8 m (dst + j) = Mem.load8 m0 (src + j)) ->
  forall j, 0 <= j < k -> j < i + Z.of_nat n ->
    Mem.load8 (Mem.memcpy_loop n m dst src i) (dst + j) = Mem.load8 m0 (src + j).
Proof.
  induction n as [|n IH]; intros m i Hs Hd Hi Hk Hsn Hdn Hpos Hsrc Hdst j Hj Hjn;
    cbn [Mem.memcpy_loop].
  - apply Hdst; lia.
  - rewrite Nat2Z.inj_succ in *.
    apply IH;
      [lia | lia | lia | lia | two64; lia | two64; lia | exact Hpos | | | lia | lia].
    + intros j' Hj'. rewrite load8_store8_other; [apply Hsrc; lia|].
      rewrite !wrap64_small by (two64; lia). lia.
    + intros j' Hj' Hj'k.
      destruct (Z.eq_dec j' i) as [-> | Hne].
      * rewrite load8_store8_same, load8_mod. apply Hsrc; lia.
      * rewrite load8_store8_other; [apply Hdst; lia|].
        rewrite !wrap64_small by (two64; lia). lia.
Qed.

Lemma memcpy_prefix m dst src size k :
  0 <= src -> 0 <= dst -> 0 <= k <= size ->
  src + size <= 2 ^ 64 -> dst + size <= 2 ^ 64 ->
  dst <= src \/ src + k <= dst ->
  forall j, 0 <= j < k ->
    Mem.load8 (Mem.pure64_memcpy m dst src size) (dst + j) = Mem.load8 m (src + j).
Proof.
  intros Hs Hd Hk Hsn Hdn Hpos j Hj. unfold Mem.pure64_memcpy.
  apply (memcpy_loop_prefix m dst src k); try lia; auto.
Qed.

Lemma memcpy_frame m dst src size x :
  (forall k, 0 <= k < size -> x <> wrap64 (dst + k)) ->
  Mem.pure64_memcpy m dst src size x = m x.
Proof.
  intros H. unfold Mem.pure64_memcpy. apply memcpy_loop_frame.
  intros k Hk. apply H. lia.
Qed.

(** The live records depend on the bytes of the table only. *)
Lemma live_records_ext map m1 m2 :
  table_fits map ->
  (forall a, in_table map a -> m1 a = m2 a) ->
  live_records map m1 = live_records map m2.
Proof.
  intros Hfit H. apply nth_error_ext. intros n.
  rewrite !live_records_nth_error.
  destruct (Nat.ltb_spec n (Z.to_nat (alloc_count map))) as [Hn|]; [|reflexivity].
  f_equal.
  destruct (entry_fits map Hfit (Z.of_nat n) ltac:(lia)) as (E & Hpos & Hend).
  assert (Hin : forall o k, 0 <= o <= 16 -> 0 <= k < 8 ->
                  m1 (wrap64 (entry map (Z.of_nat n) + o + k))
                  = m2 (wrap64 (entry map (Z.of_nat n) + o + k))).
  { intros o k Ho Hk. apply H. unfold in_table, sizeof_pure64_alloc in *.
    pose proof Hfit as (Ht & Hc & Hfits). unfold sizeof_pure64_alloc in Hfits.
    rewrite wrap64_small by (two64; lia). lia. }
  unfold read_alloc, off_addr, off_size, off_reserved.
  f_equal; apply (MemFacts.load_le_ext 8); intros k Hk; apply Hin; lia.
Qed.

(** In the relocating path the length handed to [pure64_memcpy] is read
    from the record after the new size has been stored in it: it is the new
    size. *)
Lemma realloc_move_reads_new_size m alloc addr2 size reserved :
  uint64 size ->
  let m1 := Mem.store64 m (alloc + off_addr) addr2 in
  let m2 := Mem.store64 m1 (alloc + off_size) size in
  let m3 := Mem.store64 m2 (alloc + off_reserved) reserved in
  Mem.load64 m3 (alloc + off_size) = size.
Proof.
  intros Hu m1 m2 m3. unfold m3, m2.
  rewrite MemFacts.load64_store64_other
    by (apply apart_below; unfold off_reserved, off_size; two64; lia).
  now apply MemFacts.load64_store64_same.
Qed.

(** The relocating path of [pure64_map_realloc] (map.c lines 360-387). *)
Lemma realloc_block_relocates map m addr size i :
  table_fits map -> uint64 size -> addr <> NULL ->
  0 <= i < alloc_count map ->
  alloc_addr (read_alloc m (entry map i)) = addr ->
  (forall j, 0 <= j < i -> alloc_addr (read_alloc m (entry map j)) <> addr) ->
  alloc_reserved (read_alloc m (entry map i)) < size ->
  let addr2 := find_suitable_addr map m size in
  let moved := mk_alloc addr2 size (round_boundary size) in
  addr2 <> NULL -> 0 <= addr2 -> addr2 + size <= 2 ^ 64 ->
  (forall k, 0 <= k < size -> ~ in_table map (addr2 + k)) ->
  exists m',
    pure64_map_realloc map m addr size = Some (addr2, map, m') /\
    ascending (live_records map m') /\
    Permutation (live_records map (write_alloc m (entry map i) moved))
                (live_records map m') /\
    In moved (live_records map m') /\
    (forall old_size,
        old_size = alloc_size (read_alloc m (entry map i)) ->
        old_size <= size -> 0 <= addr -> addr + size <= 2 ^ 64 ->
        addr2 <= addr \/ addr + old_size <= addr2 ->
        (forall k, 0 <= k < old_size -> ~ in_table map (addr + k)) ->
        forall j, 0 <= j < old_size ->
          Mem.load8 m' (addr2 + j) = Mem.load8 m (addr + j)).
Proof.
  intros Hfit Hsize Hnn Hi Haddr Hfirst Hres addr2 moved Hnn2 Hpos2 Hend2 Hout.
  destruct (entry_fits map Hfit i Hi) as (Hei & Hpos & Hend).
  set (m3 := write_alloc m (entry map i) moved).
  set (mc := Mem.pure64_memcpy m3 addr2 addr size).
  destruct (sort_alloc_table_sorts map Hfit mc) as (m' & Hs & Hasc & Hperm & Hframe).
  assert (Hcopy : forall a, in_table map a -> mc a = m3 a).
  { intros a Ha. apply memcpy_frame. intros k Hk E. subst a.
    rewrite wrap64_small in Ha by (two64; lia). exact (Hout k Hk Ha). }
  assert (Hperm3 : Permutation (live_records map m3) (live_records map m')).
  { rewrite <- Hperm. now rewrite (live_records_ext map mc m3 Hfit Hcopy). }
  exists m'. split; [|split; [exact Hasc | split; [exact Hperm3 | split]]].
  - unfold pure64_map_realloc.
    apply Z.eqb_neq in Hnn as ->.
    unfold realloc_block, find_alloc_entry.
    rewrite (find_alloc_loop_hit _ 0 i map m addr); rewrite ?Z.add_0_l;
      [| lia | exact Haddr | intros k Hk; rewrite Z.add_0_l; now apply Hfirst].
    assert (Hz : (entry map i =? NULL) = false)
      by (apply Z.eqb_neq; unfold NULL; lia).
    rewrite Hz.
    cbn [read_alloc alloc_reserved] in Hres.
    assert (Hlt : (Mem.load64 m (entry map i + off_reserved) >=? size) = false)
      by (rewrite Z.geb_leb; apply Z.leb_gt; lia).
    rewrite Hlt. fold addr2.
    apply Z.eqb_neq in Hnn2 as ->.
    rewrite (realloc_move_reads_new_size m (entry map i) addr2 size
               (round_boundary size) Hsize).
    change (Mem.store64
              (Mem.store64 (Mem.store64 m (entry map i + off_addr) addr2)
                           (entry map i + off_size) size)
              (entry map i + off_reserved) (round_boundary size)) with m3.
    fold mc. rewrite Hs. reflexivity.
  - apply (Permutation_in _ Hperm3).
    apply (nth_error_In _ (Z.to_nat i)).
    rewrite live_records_nth by lia. f_equal. unfold m3.
    apply read_write_alloc_same.
    pose proof (MemFacts.load64_range m (entry map i + off_reserved)).
    cbn [read_alloc alloc_reserved] in Hres.
    repeat split; cbn [moved alloc_addr alloc_size alloc_reserved];
      try apply round_boundary_range; try apply Hsize;
      unfold uint64 in *; two64; lia.
  - intros old_size Hold Hle Hpos1 Hend1 Hdir Hout1 j Hj.
    transitivity (Mem.load8 mc (addr2 + j)).
    + unfold Mem.load8. f_equal. apply Hframe.
      rewrite wrap64_small by (two64; lia). apply Hout. lia.
    + unfold mc.
      rewrite (memcpy_prefix m3 addr2 addr size old_size)
        by (two64; lia).
      unfold Mem.load8. f_equal. unfold m3.
      apply write_alloc_outside_table; auto.
      rewrite wrap64_small by (two64; lia). apply Hout1. lia.
Qed.

(** * The claims *)

(** ** C1: non-overlap *)

(** The boolean check decides the invariant of the spec. *)
Lemma non_overlapb_sound l : non_overlapb l = true -> non_overlap l.
Proof.
  assert (Hsym : forall a b, overlap a b = overlap b a)
    by (intros; unfold overlap; apply andb_comm).
  induction l as [|x l IH]; intros H i j a b Hij Ha Hb.
  - destruct i; discriminate.
  - cbn [non_overlapb] in H. apply andb_prop in H as [Hx Hl].
    rewrite forallb_forall in Hx.
    destruct i as [|i], j as [|j]; cbn [nth_error] in Ha, Hb.
    + congruence.
    + inversion Ha; subst. apply nth_error_In in Hb.
      now apply negb_true_iff, Hx.
    + inversion Hb; subst. apply nth_error_In in Ha.
      rewrite Hsym. now apply negb_true_iff, Hx.
    + apply (IH Hl i j); auto.
Qed.

(** C1.  Non-overlap is broken by the first allocation after the bootstrap:
    on the one-region firmware map the table [{0,0x60000},{0x60000,48}] has
    disjoint intervals, and [pure64_map_malloc(map, 0x500)] leaves the grown
    table and the new block both at [0x60030] with 4096 reserved bytes each,
    because [append_alloc] places the table before the new record is in
    it. *)
Theorem first_malloc_overlaps_the_table :
  observe (boot fw_one) =
    Some (NULL, 0x60000,
          [mk_alloc 0 0x60000 0x60000; mk_alloc 0x60000 48 48]) /\
  non_overlap [mk_alloc 0 0x60000 0x60000; mk_alloc 0x60000 48 48] /\
  observe (first_malloc fw_one 0x500) =
    Some (0x60030, 0x60030,
          [mk_alloc 0 0x60000 0x60000; mk_alloc 0x60030 72 0x1000;
           mk_alloc 0x60030 0x500 0x1000]) /\
  ~ non_overlap [mk_alloc 0 0x60000 0x60000; mk_alloc 0x60030 72 0x1000;
                 mk_alloc 0x60030 0x500 0x1000].
Proof.
  split; [vm_compute; reflexivity|].
  split; [apply non_overlapb_sound; vm_compute; reflexivity|].
  split; [vm_compute; reflexivity|].
  intros H.
  specialize (H 1%nat 2%nat (mk_alloc 0x60030 72 0x1000)
                (mk_alloc 0x60030 0x500 0x1000)
                ltac:(discriminate) eq_refl eq_refl).
  vm_compute in H. discriminate.
Qed.

(** The relocating [pure64_map_realloc] breaks non-overlap too: it places
    the block with the un-rounded size (40) and then reserves the rounded one
    (4096), which reaches into the table at [0x60030]. *)
Lemma realloc_move_overlaps_the_table :
  observe zero_block =
    Some (0x60000, 0x60030,
          [mk_alloc 0 0x60000 0x60000; mk_alloc 0x60030 96 0x1000;
           mk_alloc 0x100000 0x800 0x1000; mk_alloc 0x60000 0 0]) /\
  non_overlapb [mk_alloc 0 0x60000 0x60000; mk_alloc 0x60030 96 0x1000;
                mk_alloc 0x100000 0x800 0x1000; mk_alloc 0x60000 0 0] = true /\
  observe grow_zero_block =
    Some (0x60000, 0x60030,
          [mk_alloc 0 0x60000 0x60000; mk_alloc 0x60000 40 0x1000;
           mk_alloc 0x60030 96 0x1000; mk_alloc 0x100000 0x800 0x1000]) /\
  overlap (mk_alloc 0x60000 40 0x1000) (mk_alloc 0x60030 96 0x1000) = true.
Proof. repeat split; vm_compute; reflexivity. Qed.

(** [pure64_map_init] itself hands that state to the set-up of the driver:
    whatever the size of the driver structure, up to a page, the driver
    block that [ahci_init] receives and the table are both at [0x60030]. *)
Lemma init_driver_block_shares_table_address size ahci_setup :
  0 < size <= 4096 ->
  exists map m,
    pure64_map_init fw_one zero_mem size ahci_setup = ahci_setup map m /\
    ahci_driver map = 0x60030 /\
    alloc_table map = 0x60030 /\
    live_records map m =
      [mk_alloc 0 0x60000 0x60000; mk_alloc 0x60030 72 0x1000;
       mk_alloc 0x60030 size 0x1000].
Proof.
  intros Hsize.
  destruct boot_table_growth as (m1 & R & Hrec).
  rewrite pure64_map_init_unfold.
  change (fst (init_alloc_table fw_one zero_mem)) with (boot_map fw_one).
  change (snd (init_alloc_table fw_one zero_mem)) with (boot_mem fw_one).
  assert (Hm : pure64_map_malloc (boot_map fw_one) (boot_mem fw_one) size =
          Some (0x60030,
                set_table (boot_map fw_one) 0x60030 3,
                write_alloc m1 (0x60030 + 48) (mk_alloc 0x60030 size 0x1000))).
  { rewrite (malloc_success_path (boot_map fw_one) (boot_mem fw_one) size
             0x60030 0x60030 m1).
    - rewrite (round_boundary_page size Hsize).
      replace (wrap64 (alloc_count (boot_map fw_one) + 1)) with 3
        by (vm_compute; reflexivity).
      replace (entry (set_table (boot_map fw_one) 393264 3)
                 (wrap64 (alloc_count (set_table (boot_map fw_one) 393264 3) - 1)))
        with (393264 + 48) by (vm_compute; reflexivity).
      reflexivity.
    - vm_compute; discriminate.
    - rewrite (round_boundary_page size Hsize). vm_compute; reflexivity.
    - discriminate.
    - exact R.
    - discriminate. }
  rewrite Hm. change (negb (393264 =? NULL)) with true. cbv iota.
  eexists _, _. split; [reflexivity|].
  split; [reflexivity|]. split; [reflexivity|].
  change (live_records (set_driver ?mp ?p) ?m) with (live_records mp m).
  set (map' := set_table (boot_map fw_one) 393264 3).
  replace (393264 + 48) with (entry map' (alloc_count map' - 1))
    by (vm_compute; reflexivity).
  rewrite live_records_snoc.
  - replace (set_count map' (alloc_count map' - 1))
      with (set_table (boot_map fw_one) 393264 2)
      by (vm_compute; reflexivity).
    rewrite Hrec. reflexivity.
  - repeat split; vm_compute; (reflexivity || discriminate).
  - vm_compute; reflexivity.
  - repeat split; cbn [alloc_addr alloc_size alloc_reserved]; two64; lia.
Qed.

(** ** C2: alignment *)




(** ** C3: sortedness *)

(** C3.  [pure64_map_malloc] appends without sorting: with a hole below the
    last block the table is sorted before the call and has a descending pair
    after it.  The next allocation scans that table and returns [0x101000],
    the address of a live block. *)
Theorem malloc_leaves_table_unsorted :
  observe hole_below =
    Some (0x101000, 0x60030,
          [mk_alloc 0 0x60000 0x60000; mk_alloc 0x60030 96 0x1000;
           mk_alloc 0x101000 0x1000 0x1000]) /\
  sorted_strict [mk_alloc 0 0x60000 0x60000; mk_alloc 0x60030 96 0x1000;
                 mk_alloc 0x101000 0x1000 0x1000] /\
  observe malloc_into_hole =
    Some (0x100000, 0x60030,
          [mk_alloc 0 0x60000 0x60000; mk_alloc 0x60030 96 0x1000;
           mk_alloc 0x101000 0x1000 0x1000;
           mk_alloc 0x100000 0x1000 0x1000]) /\
  ~ sorted_strict [mk_alloc 0 0x60000 0x60000; mk_alloc 0x60030 96 0x1000;
                   mk_alloc 0x101000 0x1000 0x1000;
                   mk_alloc 0x100000 0x1000 0x1000] /\
  observe malloc_on_unsorted_table =
    Some (0x101000, 0x60030,
          [mk_alloc 0 0x60000 0x60000; mk_alloc 0x60030 120 0x1000;
           mk_alloc 0x101000 0x1000 0x1000;
           mk_alloc 0x100000 0x1000 0x1000;
           mk_alloc 0x101000 0x1000 0x1000]).
Proof.
  split; [vm_compute; reflexivity|].
  split; [cbn; lia|].
  split; [vm_compute; reflexivity|].
  split; [cbn; lia|].
  vm_compute; reflexivity.
Qed.

(** ** C4: where the bootstrap places the table *)

(** The clipping of [pure64_map_init]: a usable entry that starts at least 48
    bytes below [0x60000] and does not end below it is chosen, whatever it
    keeps above [0x60000]; the local [size] is the length of the part below
    the threshold. *)
Lemma init_scan_clips_below ent next addr size :
  e820_usable ent = true ->
  0 <= e820_addr ent <= 0x60000 - 2 * sizeof_pure64_alloc ->
  0x60000 <= e820_addr ent + e820_size ent < 2 ^ 64 ->
  init_scan (ent :: next) addr size
    = (ent :: next, 0x60000, 0x60000 - e820_addr ent).
Proof.
  intros Hus Hbase Hend. cbn [init_scan]. rewrite Hus. cbn [negb].
  unfold sizeof_pure64_alloc in *.
  rewrite wrap64_small by (two64; lia).
  destruct (Z.ltb_spec (e820_addr ent + e820_size ent) 393216); [lia|].
  destruct (Z.ltb_spec (e820_addr ent) 393216); [|lia].
  destruct (Z.ltb_spec (393216 - e820_addr ent) (24 * 2)); [lia|].
  reflexivity.
Qed.

(** C4.  The clipping step of [pure64_map_init] computes the length of the
    part _below_ [0x60000] ([size = 0x60000 - addr]): the region
    [[0x5F000, 0x60010)] keeps 16 bytes above the threshold, less than the
    48 bytes of two records, and is chosen all the same. *)
Theorem init_accepts_region_without_room :
  (0x5F000 + 0x1010) - Z.max 0x5F000 0x60000 = 16 /\
  16 < 2 * sizeof_pure64_alloc /\
  init_scan fw_short 0 0 = (fw_short, 0x60000, 0x1000) /\
  observe (boot fw_short) =
    Some (NULL, 0x60000,
          [mk_alloc 0 0x60000 0x60000; mk_alloc 0x60000 48 48]).
Proof. repeat split; vm_compute; reflexivity. Qed.

(** ** C5: the copy of a relocation *)

(** C5.  The relocating [pure64_map_realloc] reads [alloc->size] for the copy
    after it has stored the new size there: for [p = malloc(0x800)] and
    [realloc(p, 0x2000)] the byte at offset [0x800] of the new block, [0x55]
    before the call, is overwritten with the byte [0xAA] found behind the old
    user data. *)
Theorem realloc_copies_the_new_size :
  relocation_probe = Some (0x100000, 0x101000, 0x800, 0x55, 0xAA, 0xAA).
Proof. vm_compute. reflexivity. Qed.

(** ** C6: exact fit *)

(** C6.  After the candidate has been advanced past a record, an exactly
    fitting block is rejected: in the region [[0x60000, 0x61030)] the page
    [[0x60030, 0x61030)] behind the bootstrap table is free, and placement of
    4096 bytes returns [NULL]; one byte more in the region and it returns
    [0x60030]. *)
Theorem exact_fit_after_advance_is_rejected :
  observe (boot fw_exact) =
    Some (NULL, 0x60000,
          [mk_alloc 0 0x60000 0x60000; mk_alloc 0x60000 48 48]) /\
  0x60030 + 0x1000 = 0x60000 + 0x1030 /\
  placement_after_boot fw_exact 0x1000 = Some NULL /\
  observe (first_malloc fw_exact 0x1000) =
    Some (NULL, 0x60000,
          [mk_alloc 0 0x60000 0x60000; mk_alloc 0x60000 48 48]) /\
  placement_after_boot [mk_e820 0x60000 0x1031 true] 0x1000 = Some 0x60030.
Proof. repeat split; vm_compute; reflexivity. Qed.

(** Without a record to skip the same test is not reached and an exactly
    fitting entry is accepted: [size2 < size] is the only rejection. *)
Lemma exact_fit_without_advance_is_accepted :
  find_suitable_addr (mk_map [mk_e820 0x100000 0x1000 true] 0x60000 0 NULL)
                     zero_mem 0x1000 = 0x100000.
Proof. vm_compute; reflexivity. Qed.

(** ** C7: size zero *)

(** C7 (counterexample).  On the one-region firmware map the first
    [pure64_map_malloc(map, 0)] returns [0x60000] and appends the record
    [{0x60000, 0, 0}]: nothing is reserved, not one page. *)
Lemma malloc_zero_reserves_nothing :
  outcome (first_malloc fw_one 0) = Some (0x60000, mk_alloc 0x60000 0 0) /\
  alloc_reserved (mk_alloc 0x60000 0 0) <> BOUNDARY.
Proof. split; [vm_compute; reflexivity | discriminate]. Qed.

(** C7 (amended).  [pure64_map_malloc(map, 0)] returns, and when it succeeds
    it has appended the record [{p, 0, 0}]: size zero is not rounded,
    [reserved] is 0. *)
Theorem malloc_zero_size map m :
  table_fits map -> fw_in_range (e820 map) ->
  exists p map' m',
    pure64_map_malloc map m 0 = Some (p, map', m') /\
    (p <> NULL ->
     last_record map' m' = mk_alloc p 0 0 /\
     alloc_count map' = wrap64 (alloc_count map + 1)).
Proof.
  intros Hfit Hfw.
  assert (H0 : uint64 0) by (unfold uint64; two64; lia).
  destruct (malloc_returns_and_appends map m 0 Hfit H0 Hfw)
    as (p & map' & m' & E & H).
  exists p, map', m'. split; [exact E|]. intros Hp.
  destruct (H Hp) as (Hl & Hc & _).
  rewrite round_boundary_zero in Hl. now split.
Qed.

Lemma malloc_zero_size_witness :
  exists p map' m',
    pure64_map_malloc (boot_map fw_one) (boot_mem fw_one) 0
      = Some (p, map', m') /\
    p = 0x60000 /\
    last_record map' m' = mk_alloc p 0 0 /\
    alloc_count map' = wrap64 (alloc_count (boot_map fw_one) + 1).
Proof.
  destruct (malloc_zero_size (boot_map fw_one) (boot_mem fw_one)
              boot_one_table_fits boot_one_fw_in_range)
    as (p & map' & m' & E & H).
  assert (P : option_map (fun r => fst (fst r))
                (pure64_map_malloc (boot_map fw_one) (boot_mem fw_one) 0)
              = Some 0x60000) by (vm_compute; reflexivity).
  rewrite E in P. cbn [option_map fst] in P. inversion P; subst p.
  exists 0x60000, map', m'. split; [exact E|]. split; [reflexivity|].
  apply H. discriminate.
Defined.

(** ** C8: reallocation within the reserved bytes *)

(** C8 (counterexample).  Record 0, the bootstrap reservation
    [{0, 0x60000, 0x60000}], is live and has [reserved >= 0x500], but its
    base is [NULL]: [pure64_map_realloc(map, 0, 0x500)] takes the allocate
    path, returns [0x60030], appends a third record and leaves the [size] of
    record 0 as it was. *)
Lemma realloc_of_record0_allocates :
  observe (boot fw_one) =
    Some (NULL, 0x60000,
          [mk_alloc 0 0x60000 0x60000; mk_alloc 0x60000 48 48]) /\
  0x500 <= alloc_reserved (mk_alloc 0 0x60000 0x60000) /\
  observe realloc_record0 =
    Some (0x60030, 0x60030,
          [mk_alloc 0 0x60000 0x60000; mk_alloc 0x60030 72 0x1000;
           mk_alloc 0x60030 0x500 0x1000]).
Proof.
  split; [vm_compute; reflexivity|].
  split; [vm_compute; discriminate|].
  vm_compute; reflexivity.
Qed.

(** When two live records share a base (the table and the first block, see
    [first_malloc_overlaps_the_table]) the lookup resolves the address to the
    first of them: [realloc(p, 0x400)] of the block changes the [size] of the
    table's record and not that of the block. *)
Lemma realloc_of_shared_address_hits_first_record :
  observe realloc_shared_address =
    Some (0x60030, 0x60030,
          [mk_alloc 0 0x60000 0x60000; mk_alloc 0x60030 0x400 0x1000;
           mk_alloc 0x60030 0x500 0x1000]).
Proof. vm_compute; reflexivity. Qed.

(** C8 (amended).  For a non-null address that the lookup resolves to live
    record [i] (the first live record with that base) with
    [reserved >= size], [pure64_map_realloc] returns the same address, leaves
    the map structure as it is and stores [size] in that record's [size]
    field: every other record and every byte of memory outside those eight
    bytes is unchanged. *)
Theorem realloc_within_reserved map m addr size i :
  table_fits map -> uint64 size -> addr <> NULL ->
  0 <= i < alloc_count map ->
  alloc_addr (read_alloc m (entry map i)) = addr ->
  (forall j, 0 <= j < i -> alloc_addr (read_alloc m (entry map j)) <> addr) ->
  size <= alloc_reserved (read_alloc m (entry map i)) ->
  exists m',
    pure64_map_realloc map m addr size = Some (addr, map, m') /\
    read_alloc m' (entry map i) =
      mk_alloc addr size (alloc_reserved (read_alloc m (entry map i))) /\
    (forall j, 0 <= j < alloc_count map -> j <> i ->
               read_alloc m' (entry map j) = read_alloc m (entry map j)) /\
    (forall x, ~ (entry map i + off_size <= x < entry map i + off_size + 8) ->
               m' x = m x).
Proof.
  intros Hfit Hsize Hnn Hi Haddr Hfirst Hres.
  destruct (entry_fits map Hfit i Hi) as (Hei & Hpos & Hend).
  exists (Mem.store64 m (entry map i + off_size) size).
  unfold sizeof_pure64_alloc, off_size in *.
  split; [|split; [|split]].
  - unfold pure64_map_realloc.
    apply Z.eqb_neq in Hnn as ->.
    unfold realloc_block, find_alloc_entry.
    rewrite (find_alloc_loop_hit _ 0 i map m addr); rewrite ?Z.add_0_l;
      [| lia | exact Haddr | intros k Hk; rewrite Z.add_0_l; now apply Hfirst].
    assert (Hz : (entry map i =? NULL) = false)
      by (apply Z.eqb_neq; unfold NULL; lia).
    rewrite Hz.
    cbn [read_alloc alloc_reserved] in Hres.
    assert (Hge : (Mem.load64 m (entry map i + off_reserved) >=? size) = true)
      by (apply Z.geb_le; lia).
    rewrite Hge. reflexivity.
  - cbn [read_alloc alloc_addr alloc_reserved] in *.
    unfold read_alloc, off_addr, off_size, off_reserved in *. f_equal.
    + rewrite MemFacts.load64_store64_other;
        [exact Haddr | apply apart_below; two64; lia].
    + now apply MemFacts.load64_store64_same.
    + apply MemFacts.load64_store64_other. apply apart_above; two64; lia.
  - intros j Hj Hji.
    destruct (entry_fits map Hfit j Hj) as (Hej & _ & _).
    unfold sizeof_pure64_alloc in Hej.
    unfold read_alloc, off_addr, off_size, off_reserved.
    assert (Hcase : j < i \/ i < j) by lia.
    f_equal; apply MemFacts.load64_store64_other;
      (destruct Hcase; [apply apart_below | apply apart_above]);
      unfold table_fits, sizeof_pure64_alloc in Hfit; two64; lia.
  - intros x Hx. apply MemFacts.store64_other. intros k Hk.
    rewrite wrap64_small by (two64; lia). lia.
Qed.

Lemma realloc_within_reserved_witness :
  exists m',
    pure64_map_realloc (boot_map fw_one) (boot_mem fw_one) 0x60000 40
      = Some (0x60000, boot_map fw_one, m') /\
    read_alloc m' (entry (boot_map fw_one) 1) = mk_alloc 0x60000 40 48.
Proof.
  destruct (realloc_within_reserved (boot_map fw_one) (boot_mem fw_one)
              0x60000 40 1) as (m' & E & Hrec & _).
  - exact boot_one_table_fits.
  - split; vm_compute; (reflexivity || discriminate).
  - discriminate.
  - split; vm_compute; (reflexivity || discriminate).
  - vm_compute; reflexivity.
  - intros j Hj. assert (j = 0) as -> by lia. vm_compute; discriminate.
  - vm_compute; discriminate.
  - exists m'. split; [exact E|].
    rewrite Hrec. vm_compute; reflexivity.
Defined.

(** ** C9: failures *)

(** C9.  A [pure64_map_malloc] or [pure64_map_realloc] that returns [NULL]
    leaves the map structure and the whole memory, hence [alloc_count] and
    every record, as they were; [pure64_map_free] of [NULL] or of an address
    that is no live record's base returns and changes nothing; and on a table
    that lies inside the address space each of the three calls returns. *)
Theorem failures_leave_the_table_unchanged map m :
  (forall size p map' m',
      pure64_map_malloc map m size = Some (p, map', m') -> p = NULL ->
      map' = map /\ m' = m) /\
  (forall addr size p map' m',
      pure64_map_realloc map m addr size = Some (p, map', m') -> p = NULL ->
      map' = map /\ m' = m) /\
  pure64_map_free map m NULL = Some (map, m) /\
  (forall addr,
      (forall r, In r (live_records map m) -> alloc_addr r <> addr) ->
      pure64_map_free map m addr = Some (map, m)) /\
  (table_fits map ->
   (forall size, exists r, pure64_map_malloc map m size = Some r) /\
   (forall addr size, exists r, pure64_map_realloc map m addr size = Some r) /\
   (forall addr, exists r, pure64_map_free map m addr = Some r)).
Proof.
  split; [intros; eapply malloc_null; eauto|].
  split; [intros; eapply realloc_null; eauto|].
  split; [reflexivity|].
  split.
  - intros addr H. unfold pure64_map_free.
    rewrite (find_alloc_entry_unknown _ _ _ H).
    destruct (addr =? NULL); reflexivity.
  - intros Hfit. split; [|split]; intros.
    + now apply malloc_returns.
    + now apply realloc_returns.
    + now apply free_returns.
Qed.

Lemma failures_leave_the_table_unchanged_witness :
  pure64_map_free (boot_map fw_one) (boot_mem fw_one) 0x1234
    = Some (boot_map fw_one, boot_mem fw_one) /\
  (exists map' m',
      pure64_map_malloc (boot_map fw_one) (boot_mem fw_one) 0x1000000
        = Some (NULL, map', m') /\
      map' = boot_map fw_one /\ m' = boot_mem fw_one).
Proof.
  destruct (failures_leave_the_table_unchanged
              (boot_map fw_one) (boot_mem fw_one))
    as (Hm & _ & _ & Hf & Hret).
  split.
  - apply Hf. intros r Hin.
    assert (L : live_records (boot_map fw_one) (boot_mem fw_one) =
                [mk_alloc 0 0x60000 0x60000; mk_alloc 0x60000 48 48])
      by (vm_compute; reflexivity).
    rewrite L in Hin.
    destruct Hin as [<- | [<- | []]]; cbn; discriminate.
  - destruct (Hret boot_one_table_fits) as (Hmalloc & _ & _).
    destruct (Hmalloc 0x1000000) as ([[p map'] m'] & E).
    assert (P : option_map (fun r => fst (fst r))
                  (pure64_map_malloc (boot_map fw_one) (boot_mem fw_one)
                     0x1000000) = Some NULL) by (vm_compute; reflexivity).
    rewrite E in P. cbn [option_map fst] in P. inversion P; subst p.
    exists map', m'. split; [exact E|]. exact (Hm _ _ _ _ E eq_refl).
Defined.

(** ** C10: sizes near 2^64 *)

(** C10.  In 64-bit arithmetic the page rounding of a size above
    [2^64 - 4096] that is no multiple of 4096 wraps to 0: [pure64_map_malloc]
    returns, a successful call has appended a record whose [size] is the huge
    request and whose [reserved] is 0, and on the bootstrapped one-region map
    the call does succeed. *)
Theorem huge_size_rounding_wraps size :
  2 ^ 64 - 4096 < size < 2 ^ 64 -> size mod 4096 <> 0 ->
  round_boundary size = 0 /\
  round_boundary size < size /\
  (forall map m,
      table_fits map -> fw_in_range (e820 map) ->
      exists p map' m',
        pure64_map_malloc map m size = Some (p, map', m') /\
        (p <> NULL -> last_record map' m' = mk_alloc p size 0)) /\
  (exists p map' m',
      pure64_map_malloc (boot_map fw_one) (boot_mem fw_one) size
        = Some (p, map', m') /\ p <> NULL).
Proof.
  intros Hsize Hmod.
  pose proof (round_boundary_wraps size Hsize Hmod) as Hround.
  assert (Hu : uint64 size) by (unfold uint64; two64; lia).
  split; [exact Hround|].
  split; [rewrite Hround; two64; lia|].
  split.
  - intros map m Hfit Hfw.
    destruct (malloc_returns_and_appends map m size Hfit Hu Hfw)
      as (p & map' & m' & E & H).
    exists p, map', m'. split; [exact E|]. intros Hp.
    destruct (H Hp) as (Hl & _ & _). now rewrite Hround in Hl.
  - unfold pure64_map_malloc. rewrite Hround.
    assert (Ht : (alloc_table (boot_map fw_one) =? NULL) = false)
      by (vm_compute; reflexivity).
    assert (Hf : find_suitable_addr (boot_map fw_one) (boot_mem fw_one) 0
                 = 0x60000) by (vm_compute; reflexivity).
    rewrite Ht, Hf. change (0x60000 =? NULL) with false. cbv iota.
    unfold append_alloc.
    set (call := realloc_block _ _ _ _).
    assert (R : option_map (fun r => fst (fst r)) call = Some 0x60030)
      by (vm_compute; reflexivity).
    destruct call as [[[tbl mp] m1]|]; [|discriminate].
    cbn [option_map fst] in R. inversion R; subst tbl.
    change (0x60030 =? NULL) with false. cbv iota.
    change (negb (0 =? 0)) with false. cbv iota.
    eexists _, _, _. split; [reflexivity | discriminate].
Qed.

Lemma huge_size_rounding_wraps_witness :
  round_boundary (2 ^ 64 - 1) = 0 /\
  exists p map' m',
    pure64_map_malloc (boot_map fw_one) (boot_mem fw_one) (2 ^ 64 - 1)
      = Some (p, map', m') /\
    p <> NULL.
Proof.
  assert (H1 : 2 ^ 64 - 4096 < 2 ^ 64 - 1 < 2 ^ 64) by (two64; lia).
  assert (H2 : (2 ^ 64 - 1) mod 4096 <> 0) by (vm_compute; discriminate).
  destruct (huge_size_rounding_wraps (2 ^ 64 - 1) H1 H2)
    as (Hr & _ & _ & Hex).
  split; [exact Hr | exact Hex].
Defined.

(* ------------------------------------------------------------------ *)
(** * Further properties of map.c *)

(** ** Reading the table *)

Lemma live_records_slot map m pre x rest :
  live_records map m = pre ++ x :: rest ->
  read_alloc m (entry map (Z.of_nat (length pre))) = x.
Proof.
  intros Hl.
  pose proof (length_live_records map m) as Hlen.
  rewrite Hl, length_app in Hlen. cbn [length] in Hlen.
  pose proof (live_records_nth_error map m (length pre)) as E.
  rewrite Hl, nth_error_app2, Nat.sub_diag in E by lia.
  cbn [nth_error] in E.
  destruct (Nat.ltb_spec (length pre) (Z.to_nat (alloc_count map)));
    [congruence | lia].
Qed.

Lemma live_records_split map m i :
  0 <= i < alloc_count map ->
  exists pre rest,
    live_records map m = pre ++ read_alloc m (entry map i) :: rest /\
    length pre = Z.to_nat i.
Proof.
  intros Hi.
  destruct (nth_error_split (live_records map m) (Z.to_nat i)
              (live_records_nth map m i Hi)) as (pre & rest & E & Hlen).
  now exists pre, rest.
Qed.

(** ** [sort_alloc_table] *)

(** A pass over records that are already in order swaps nothing and writes
    nothing. *)
Lemma sort_pass_ascending map : forall rest pre x m flag,
  live_records map m = pre ++ x :: rest ->
  ascending (x :: rest) ->
  sort_pass (length rest) (Z.of_nat (length pre)) map m flag = (m, flag).
Proof.
  induction rest as [|y t IH]; intros pre x m flag Hl Hasc;
    cbn [length sort_pass]; [reflexivity|].
  pose proof (live_records_slot map m pre x (y :: t) Hl) as Hx.
  assert (Hl' : live_records map m = (pre ++ [x]) ++ y :: t)
    by (now rewrite <- app_assoc).
  pose proof (live_records_slot map m (pre ++ [x]) y t Hl') as Hy.
  rewrite length_app in Hy. cbn [length] in Hy.
  replace (Z.of_nat (length pre + 1)) with (Z.of_nat (length pre) + 1)
    in Hy by lia.
  change (Mem.load64 m (entry map (Z.of_nat (length pre)) + off_addr))
    with (alloc_addr (read_alloc m (entry map (Z.of_nat (length pre))))).
  change (Mem.load64 m (entry map (Z.of_nat (length pre) + 1) + off_addr))
    with (alloc_addr (read_alloc m (entry map (Z.of_nat (length pre) + 1)))).
  rewrite Hx, Hy.
  apply StronglySorted_inv in Hasc as [Ht Hxy].
  pose proof (Forall_inv Hxy) as Hle. unfold addr_le in Hle.
  destruct (Z.gtb_spec (alloc_addr x) (alloc_addr y)); [lia|].
  specialize (IH (pre ++ [x]) y m flag Hl' Ht).
  rewrite length_app in IH. cbn [length] in IH.
  replace (Z.of_nat (length pre + 1)) with (Z.of_nat (length pre) + 1)
    in IH by lia.
  exact IH.
Qed.

(** X1.  [sort_alloc_table] on a table whose live records are already
    ascending by address returns at once and leaves the memory as it is. *)
Theorem sort_alloc_table_keeps_sorted_table map m :
  ascending (live_records map m) -> sort_alloc_table map m = Some m.
Proof.
  intros Hasc. unfold sort_alloc_table. cbn [sort_loop].
  pose proof (length_live_records map m) as Hlen.
  destruct (live_records map m) as [|x rest] eqn:Hl.
  - cbn [length] in Hlen.
    replace (Z.to_nat (alloc_count map - 1)) with 0%nat by lia.
    reflexivity.
  - cbn [length] in Hlen.
    replace (Z.to_nat (alloc_count map - 1)) with (length rest) by lia.
    pose proof (sort_pass_ascending map rest [] x m false Hl Hasc) as E.
    cbn [length Z.of_nat] in E. now rewrite E.
Qed.

Lemma sort_alloc_table_keeps_sorted_table_witness :
  sort_alloc_table (boot_map fw_one) (boot_mem fw_one)
    = Some (boot_mem fw_one).
Proof.
  apply sort_alloc_table_keeps_sorted_table.
  assert (L : live_records (boot_map fw_one) (boot_mem fw_one) =
              [mk_alloc 0 0x60000 0x60000; mk_alloc 0x60000 48 48])
    by (vm_compute; reflexivity).
  rewrite L. repeat constructor; unfold addr_le; cbn; lia.
Defined.

(** X2.  [sort_alloc_table] returns on every table that lies inside the
    address space: the live records come out ascending by address, they are
    a permutation of what they were, and no byte outside the table is
    written. *)
Theorem sort_alloc_table_correct map m :
  table_fits map ->
  exists m', sort_alloc_table map m = Some m' /\
             ascending (live_records map m') /\
             Permutation (live_records map m) (live_records map m') /\
             (forall a, ~ in_table map a -> m' a = m a).
Proof. intros Hfit. now apply sort_alloc_table_sorts. Qed.

Lemma sort_alloc_table_correct_witness :
  exists m', sort_alloc_table (boot_map fw_one) (boot_mem fw_one) = Some m' /\
             ascending (live_records (boot_map fw_one) m').
Proof.
  destruct (sort_alloc_table_correct (boot_map fw_one) (boot_mem fw_one)
              boot_one_table_fits) as (m' & E & Hasc & _).
  exists m'. split; [exact E | exact Hasc].
Defined.

(** ** [find_alloc_entry] *)

Lemma find_alloc_loop_cases n : forall i map m addr,
  (find_alloc_loop n i map m addr = NULL /\
   forall k, 0 <= k < Z.of_nat n ->
             alloc_addr (read_alloc m (entry map (i + k))) <> addr)
  \/
  (exists j, 0 <= j < Z.of_nat n /\
             alloc_addr (read_alloc m (entry map (i + j))) = addr /\
             (forall k, 0 <= k < j ->
                        alloc_addr (read_alloc m (entry map (i + k))) <> addr) /\
             find_alloc_loop n i map m addr = entry map (i + j)).
Proof.
  induction n as [|n IH]; intros i map m addr.
  - left. split; [reflexivity | intros; lia].
  - cbn [find_alloc_loop].
    change (Mem.load64 m (entry map i + off_addr))
      with (alloc_addr (read_alloc m (entry map i))).
    destruct (Z.eqb_spec (alloc_addr (read_alloc m (entry map i))) addr)
      as [Heq | Hne].
    + right. exists 0. replace (i + 0) with i by lia.
      repeat split; auto; lia.
    + destruct (IH (i + 1) map m addr) as [[Hnull Hmiss] | (j & Hj & Hhit & Hfirst & Hres)].
      * left. split; [exact Hnull|]. intros k Hk.
        destruct (Z.eq_dec k 0) as [-> | Hk0];
          [now replace (i + 0) with i by lia|].
        replace (i + k) with (i + 1 + (k - 1)) by lia. apply Hmiss. lia.
      * right. exists (j + 1).
        replace (i + (j + 1)) with (i + 1 + j) by lia.
        split; [lia|]. split; [exact Hhit|]. split; [|exact Hres].
        intros k Hk.
        destruct (Z.eq_dec k 0) as [-> | Hk0];
          [now replace (i + 0) with i by lia|].
        replace (i + k) with (i + 1 + (k - 1)) by lia. apply Hfirst. lia.
Qed.

(** X3.  [find_alloc_entry] returns [NULL] exactly when no live record has
    the given base, and otherwise the slot of the first live record that has
    it. *)
Theorem find_alloc_entry_spec map m addr :
  table_fits map ->
  (find_alloc_entry map m addr = NULL <->
   forall r, In r (live_records map m) -> alloc_addr r <> addr) /\
  (find_alloc_entry map m addr <> NULL ->
   exists i, 0 <= i < alloc_count map /\
             find_alloc_entry map m addr = entry map i /\
             alloc_addr (read_alloc m (entry map i)) = addr /\
             forall k, 0 <= k < i ->
                       alloc_addr (read_alloc m (entry map k)) <> addr).
Proof.
  intros Hfit.
  assert (Hcount : 0 <= alloc_count map) by (destruct Hfit as (_ & H & _); exact H).
  unfold find_alloc_entry.
  destruct (find_alloc_loop_cases (Z.to_nat (alloc_count map)) 0 map m addr)
    as [[Hnull Hmiss] | (j & Hj & Hhit & Hfirst & Hres)].
  - rewrite Hnull. split; [|intros H; now elim H].
    split; [|reflexivity]. intros _ r Hin.
    apply In_nth_error in Hin as [n Hn].
    rewrite live_records_nth_error in Hn.
    destruct (Nat.ltb_spec n (Z.to_nat (alloc_count map))); [|discriminate].
    inversion Hn; subst r. apply (Hmiss (Z.of_nat n)). lia.
  - rewrite Z.add_0_l in *.
    assert (Hj' : 0 <= j < alloc_count map) by lia.
    destruct (entry_fits map Hfit j Hj') as (_ & Hpos & _).
    rewrite Hres. split.
    + split.
      * intros Hz. unfold NULL in Hz. lia.
      * intros Hall. exfalso.
        apply (Hall (read_alloc m (entry map j))); [|exact Hhit].
        eapply nth_error_In. apply live_records_nth. exact Hj'.
    + intros _. exists j. repeat split; auto; lia.
Qed.

Lemma find_alloc_entry_spec_witness :
  find_alloc_entry (boot_map fw_one) (boot_mem fw_one) 0x1234 = NULL /\
  exists i, find_alloc_entry (boot_map fw_one) (boot_mem fw_one) 0x60000
            = entry (boot_map fw_one) i.
Proof.
  assert (L : live_records (boot_map fw_one) (boot_mem fw_one) =
              [mk_alloc 0 0x60000 0x60000; mk_alloc 0x60000 48 48])
    by (vm_compute; reflexivity).
  split.
  - apply (find_alloc_entry_spec _ _ 0x1234 boot_one_table_fits).
    intros r Hin. rewrite L in Hin.
    destruct Hin as [<- | [<- | []]]; cbn; discriminate.
  - destruct (proj2 (find_alloc_entry_spec _ (boot_mem fw_one) 0x60000
                       boot_one_table_fits)) as (i & _ & E & _).
    + vm_compute; discriminate.
    + exists i. exact E.
Defined.

(** ** Unknown pointers *)

(** X4.  [pure64_map_realloc] of a non-null address that is no live record's
    base returns [NULL] and changes nothing, whatever the size. *)
Theorem realloc_of_unknown_pointer map m addr size :
  addr <> NULL ->
  (forall r, In r (live_records map m) -> alloc_addr r <> addr) ->
  pure64_map_realloc map m addr size = Some (NULL, map, m).
Proof.
  intros Hnn Hall. unfold pure64_map_realloc.
  apply Z.eqb_neq in Hnn as ->. unfold realloc_block.
  now rewrite (find_alloc_entry_unknown _ _ _ Hall).
Qed.

Lemma realloc_of_unknown_pointer_witness :
  pure64_map_realloc (boot_map fw_one) (boot_mem fw_one) 0x1234 0x500
    = Some (NULL, boot_map fw_one, boot_mem fw_one).
Proof.
  apply realloc_of_unknown_pointer; [discriminate|].
  assert (L : live_records (boot_map fw_one) (boot_mem fw_one) =
              [mk_alloc 0 0x60000 0x60000; mk_alloc 0x60000 48 48])
    by (vm_compute; reflexivity).
  intros r Hin. rewrite L in Hin.
  destruct Hin as [<- | [<- | []]]; cbn; discriminate.
Defined.

(** ** [pure64_map_free] *)

(** Storing a base address in slot [length pre] replaces the [addr] of that
    record and nothing else in the table. *)
Lemma live_records_store_addr map m pre x rest v :
  table_fits map -> uint64 v ->
  live_records map m = pre ++ x :: rest ->
  live_records map
    (Mem.store64 m (entry map (Z.of_nat (length pre)) + off_addr) v)
  = pre ++ mk_alloc v (alloc_size x) (alloc_reserved x) :: rest.
Proof.
  intros Hfit Hv Hl.
  assert (Hlen : length (pre ++ x :: rest) = Z.to_nat (alloc_count map))
    by (rewrite <- Hl; apply length_live_records).
  rewrite length_app in Hlen; cbn [length] in Hlen.
  pose proof (live_records_slot map m pre x rest Hl) as Hx.
  assert (Hi : 0 <= Z.of_nat (length pre) < alloc_count map) by lia.
  destruct (entry_fits map Hfit _ Hi) as (Ei & Hpos & Hend).
  apply nth_error_ext. intros n.
  rewrite (nth_error_middle pre rest _ x n), <- Hl, !live_records_nth_error.
  destruct (Nat.eqb_spec n (length pre)) as [-> | Hn].
  - destruct (Nat.ltb_spec (length pre) (Z.to_nat (alloc_count map))); [|lia].
    f_equal. rewrite <- Hx.
    unfold read_alloc; cbn [alloc_size alloc_reserved].
    unfold off_addr, off_size, off_reserved, sizeof_pure64_alloc in *.
    f_equal.
    + now apply MemFacts.load64_store64_same.
    + apply MemFacts.load64_store64_other. apply apart_above; two64; lia.
    + apply MemFacts.load64_store64_other. apply apart_above; two64; lia.
  - destruct (Nat.ltb_spec n (Z.to_nat (alloc_count map))) as [Hlt|];
      [|reflexivity].
    f_equal.
    assert (Hn' : 0 <= Z.of_nat n < alloc_count map) by lia.
    destruct (entry_fits map Hfit _ Hn') as (En & Hposn & Hendn).
    pose proof Hfit as (_ & _ & Hfits).
    unfold read_alloc, off_addr, off_size, off_reserved,
      sizeof_pure64_alloc in *.
    assert (Hcase : Z.of_nat n < Z.of_nat (length pre)
                    \/ Z.of_nat (length pre) < Z.of_nat n) by lia.
    f_equal; apply MemFacts.load64_store64_other;
      (destruct Hcase; [apply apart_below | apply apart_above]);
      two64; lia.
Qed.

(** The last live record, split off. *)
Lemma live_records_last map m :
  0 < alloc_count map ->
  live_records map m =
    live_records (set_count map (alloc_count map - 1)) m
    ++ [read_alloc m (entry map (alloc_count map - 1))].
Proof.
  intros Hc. apply nth_error_ext. intros n.
  rewrite live_records_nth_error.
  assert (Hlen : length (live_records (set_count map (alloc_count map - 1)) m)
                 = Z.to_nat (alloc_count map - 1))
    by (rewrite length_live_records; reflexivity).
  destruct (Nat.ltb_spec n (Z.to_nat (alloc_count map))) as [Hn | Hn].
  - destruct (Nat.eq_dec n (Z.to_nat (alloc_count map - 1))) as [-> | Hne].
    + rewrite nth_error_app2, Hlen, Nat.sub_diag by lia. cbn [nth_error].
      now rewrite Z2Nat.id by lia.
    + rewrite nth_error_app1 by lia.
      rewrite live_records_nth_error. cbn [set_count alloc_count].
      destruct (Nat.ltb_spec n (Z.to_nat (alloc_count map - 1))); [|lia].
      reflexivity.
  - symmetry. apply nth_error_None. rewrite length_app, Hlen. cbn [length]. lia.
Qed.

Lemma ascending_last l x :
  ascending (l ++ [x]) -> Forall (fun r => addr_le r x) l.
Proof.
  induction l as [|a l IH]; intros H; [constructor|].
  cbn [app] in H. apply StronglySorted_inv in H as [Hl Ha].
  constructor; [|now apply IH].
  rewrite Forall_app in Ha. destruct Ha as [_ Hx]. now apply Forall_inv in Hx.
Qed.

Lemma ascending_app_inv l s : ascending (l ++ s) -> ascending l.
Proof.
  induction l as [|a l IH]; intros H; [constructor|].
  cbn [app] in H. apply StronglySorted_inv in H as [Hl Ha].
  constructor; [now apply IH|].
  rewrite Forall_app in Ha. now destruct Ha.
Qed.

(** [pure64_map_free] on the first record with the given base. *)
Lemma free_first_match map m addr i :
  table_fits map -> addr <> NULL ->
  0 <= i < alloc_count map ->
  alloc_addr (read_alloc m (entry map i)) = addr ->
  (forall k, 0 <= k < i -> alloc_addr (read_alloc m (entry map k)) <> addr) ->
  (forall r, In r (live_records map m) -> alloc_addr r <> MAX_ADDR) ->
  exists m',
    pure64_map_free map m addr
      = Some (set_count map (alloc_count map - 1), m') /\
    Permutation (live_records map m)
                (read_alloc m (entry map i)
                 :: live_records (set_count map (alloc_count map - 1)) m') /\
    ascending (live_records (set_count map (alloc_count map - 1)) m') /\
    (forall a, ~ in_table map a -> m' a = m a).
Proof.
  intros Hfit Hnn Hi Haddr Hfirst Hmax.
  destruct (entry_fits map Hfit i Hi) as (Ei & Hpos & Hend).
  destruct (live_records_split map m i Hi) as (pre & rest & Hl & Hlen).
  set (x := read_alloc m (entry map i)) in *.
  set (m1 := Mem.store64 m (entry map i + off_addr) MAX_ADDR).
  set (tomb := mk_alloc MAX_ADDR (alloc_size x) (alloc_reserved x)).
  assert (Hl1 : live_records map m1 = pre ++ tomb :: rest).
  { unfold m1. replace i with (Z.of_nat (length pre)) by lia.
    apply live_records_store_addr; auto.
    unfold MAX_ADDR, uint64; two64; lia. }
  destruct (sort_alloc_table_sorts map Hfit m1)
    as (m' & Hs & Hasc & Hperm & Hframe).
  pose proof Hfit as (Htab & _ & Hfits). unfold sizeof_pure64_alloc in *.
  assert (Hw : wrap64 (alloc_count map - 1) = alloc_count map - 1)
    by (apply wrap64_small; two64; lia).
  exists m'. split; [|split; [|split]].
  - unfold pure64_map_free. apply Z.eqb_neq in Hnn as ->.
    unfold find_alloc_entry.
    rewrite (find_alloc_loop_hit _ 0 i map m addr); rewrite ?Z.add_0_l;
      [| lia | exact Haddr | intros k Hk; rewrite Z.add_0_l; now apply Hfirst].
    assert (Hz : (entry map i =? NULL) = false)
      by (apply Z.eqb_neq; unfold NULL; lia).
    rewrite Hz. fold m1. rewrite Hs, Hw. reflexivity.
  - rewrite (live_records_last map m') in Hperm, Hasc by lia.
    set (keep := live_records (set_count map (alloc_count map - 1)) m') in *.
    set (lst := read_alloc m' (entry map (alloc_count map - 1))) in *.
    rewrite Hl1 in Hperm.
    assert (Hlst : alloc_addr lst = MAX_ADDR).
    { assert (Hin : In tomb (keep ++ [lst])).
      { apply (Permutation_in _ Hperm). apply in_or_app. right. now left. }
      pose proof (MemFacts.load64_range m'
                    (entry map (alloc_count map - 1) + off_addr)) as Hr.
      change (Mem.load64 m' (entry map (alloc_count map - 1) + off_addr))
        with (alloc_addr lst) in Hr.
      apply in_app_or in Hin as [Hin | [Heq | []]];
        [|now rewrite Heq in *].
      pose proof (ascending_last _ _ Hasc) as Hall.
      rewrite Forall_forall in Hall. specialize (Hall _ Hin).
      unfold addr_le in Hall. cbn [tomb alloc_addr] in Hall.
      unfold MAX_ADDR in *. two64. lia. }
    assert (Heq : lst = tomb).
    { assert (Hin : In lst (pre ++ tomb :: rest)).
      { apply (Permutation_in _ (Permutation_sym Hperm)).
        apply in_or_app. right. now left. }
      apply in_app_or in Hin as [Hin | [Hin | Hin]]; [|now symmetry|];
        exfalso; apply (Hmax lst); auto; rewrite Hl; apply in_or_app;
        [now left | right; now right]. }
    rewrite Heq in Hperm.
    assert (Hkeep : Permutation (pre ++ rest) keep).
    { apply (Permutation_cons_inv (a := tomb)).
      rewrite (Permutation_middle pre rest tomb).
      rewrite Hperm. symmetry. apply Permutation_cons_append. }
    rewrite Hl. rewrite <- Hkeep. symmetry. apply Permutation_middle.
  - rewrite (live_records_last map m') in Hasc by lia.
    now apply ascending_app_inv in Hasc.
  - intros a Ha. rewrite (Hframe a Ha). unfold m1.
    apply MemFacts.store64_other. intros k Hk E. apply Ha. subst a.
    unfold in_table, off_addr, sizeof_pure64_alloc in *.
    rewrite wrap64_small by (two64; lia). lia.
Qed.

(** X5.  [pure64_map_free] of the non-null base of a live record retires the first
    record with that base: the count drops by one, the records that stay
    live are all the others, ascending by address, and no byte outside the
    table is written.  (No live record has the tombstone address
    [0xffffffffffffffff] as its base.) *)
Theorem free_retires_first_match map m addr i :
  table_fits map -> addr <> NULL ->
  0 <= i < alloc_count map ->
  alloc_addr (read_alloc m (entry map i)) = addr ->
  (forall k, 0 <= k < i -> alloc_addr (read_alloc m (entry map k)) <> addr) ->
  (forall r, In r (live_records map m) -> alloc_addr r <> MAX_ADDR) ->
  exists m',
    pure64_map_free map m addr
      = Some (set_count map (alloc_count map - 1), m') /\
    Permutation (live_records map m)
                (read_alloc m (entry map i)
                 :: live_records (set_count map (alloc_count map - 1)) m') /\
    ascending (live_records (set_count map (alloc_count map - 1)) m') /\
    (forall a, ~ in_table map a -> m' a = m a).
Proof. apply free_first_match. Qed.

Lemma free_retires_first_match_witness :
  exists m',
    pure64_map_free (boot_map fw_one) (boot_mem fw_one) 0x60000
      = Some (set_count (boot_map fw_one) 1, m') /\
    ascending (live_records (set_count (boot_map fw_one) 1) m').
Proof.
  assert (L : live_records (boot_map fw_one) (boot_mem fw_one) =
              [mk_alloc 0 0x60000 0x60000; mk_alloc 0x60000 48 48])
    by (vm_compute; reflexivity).
  destruct (free_retires_first_match (boot_map fw_one) (boot_mem fw_one)
              0x60000 1 boot_one_table_fits) as (m' & E & _ & Hasc & _).
  - discriminate.
  - vm_compute. split; [discriminate | reflexivity].
  - vm_compute; reflexivity.
  - intros k Hk. assert (k = 0) as -> by lia. vm_compute. discriminate.
  - intros r Hin. rewrite L in Hin.
    destruct Hin as [<- | [<- | []]]; cbn; discriminate.
  - exists m'. split; [exact E | exact Hasc].
Defined.

(** [pure64_map_free] on the one record with the given base. *)
Lemma free_unique_record map m addr pre x rest :
  table_fits map -> addr <> NULL ->
  live_records map m = pre ++ x :: rest ->
  alloc_addr x = addr ->
  Forall (fun r => alloc_addr r <> addr) (pre ++ rest) ->
  Forall (fun r => alloc_addr r <> MAX_ADDR) (pre ++ x :: rest) ->
  let map' := set_count map (alloc_count map - 1) in
  exists m',
    pure64_map_free map m addr = Some (map', m') /\
    Permutation (pre ++ rest) (live_records map' m') /\
    pure64_map_free map' m' addr = Some (map', m') /\
    forall size, pure64_map_realloc map' m' addr size = Some (NULL, map', m').
Proof.
  intros Hfit Hnn Hl Hx Hothers Hmax map'. unfold map'. clear map'.
  assert (Hlen : length (pre ++ x :: rest) = Z.to_nat (alloc_count map))
    by (rewrite <- Hl; apply length_live_records).
  rewrite length_app in Hlen; cbn [length] in Hlen.
  pose proof Hfit as (_ & Hc & _).
  set (i := Z.of_nat (length pre)).
  assert (Hi : 0 <= i < alloc_count map) by lia.
  pose proof (live_records_slot map m pre x rest Hl) as Hslot. fold i in Hslot.
  destruct (free_first_match map m addr i Hfit Hnn Hi)
    as (m' & E & Hperm & _ & _).
  - now rewrite Hslot.
  - intros k Hk.
    assert (Hnth : nth_error (live_records map m) (Z.to_nat k)
                   = Some (read_alloc m (entry map k)))
      by (apply live_records_nth; lia).
    rewrite Hl, nth_error_app1 in Hnth by (unfold i in Hk; lia).
    apply nth_error_In in Hnth.
    rewrite Forall_forall in Hothers. apply Hothers.
    apply in_or_app. now left.
  - intros r Hr. rewrite Hl in Hr.
    rewrite Forall_forall in Hmax. now apply Hmax.
  - rewrite Hslot, Hl in Hperm.
    assert (Hkeep : Permutation (pre ++ rest)
                      (live_records (set_count map (alloc_count map - 1)) m')).
    { apply (Permutation_cons_inv (a := x)).
      rewrite <- Hperm. apply Permutation_middle. }
    assert (Hunknown : forall r,
               In r (live_records (set_count map (alloc_count map - 1)) m') ->
               alloc_addr r <> addr).
    { intros r Hr. rewrite Forall_forall in Hothers. apply Hothers.
      apply (Permutation_in _ (Permutation_sym Hkeep)). exact Hr. }
    exists m'.
    split; [exact E|]. split; [exact Hkeep|]. split.
    + unfold pure64_map_free. apply Z.eqb_neq in Hnn. rewrite Hnn.
      now rewrite (find_alloc_entry_unknown _ _ _ Hunknown).
    + intros size. unfold pure64_map_realloc, realloc_block.
      apply Z.eqb_neq in Hnn. rewrite Hnn.
      now rewrite (find_alloc_entry_unknown _ _ _ Hunknown).
Qed.

(** X6.  After [pure64_map_free] of the non-null base of the one live record
    that has it (no live base being the tombstone address), the allocator no longer knows the address: the records left
    are the others, a second [pure64_map_free] changes nothing and
    [pure64_map_realloc] of the address returns [NULL]. *)
Theorem free_forgets_the_address map m addr pre x rest :
  table_fits map -> addr <> NULL ->
  live_records map m = pre ++ x :: rest ->
  alloc_addr x = addr ->
  Forall (fun r => alloc_addr r <> addr) (pre ++ rest) ->
  Forall (fun r => alloc_addr r <> MAX_ADDR) (pre ++ x :: rest) ->
  let map' := set_count map (alloc_count map - 1) in
  exists m',
    pure64_map_free map m addr = Some (map', m') /\
    Permutation (pre ++ rest) (live_records map' m') /\
    pure64_map_free map' m' addr = Some (map', m') /\
    forall size, pure64_map_realloc map' m' addr size = Some (NULL, map', m').
Proof. apply free_unique_record. Qed.

Lemma free_forgets_the_address_witness :
  let map' := set_count (boot_map fw_one)
                        (alloc_count (boot_map fw_one) - 1) in
  exists m',
    pure64_map_free (boot_map fw_one) (boot_mem fw_one) 0x60000
      = Some (map', m') /\
    Permutation ([mk_alloc 0 0x60000 0x60000] ++ [])
                (live_records map' m') /\
    pure64_map_free map' m' 0x60000 = Some (map', m') /\
    forall size,
      pure64_map_realloc map' m' 0x60000 size = Some (NULL, map', m').
Proof.
  apply (free_forgets_the_address _ _ _ _ (mk_alloc 0x60000 48 48)).
  - exact boot_one_table_fits.
  - discriminate.
  - vm_compute; reflexivity.
  - reflexivity.
  - repeat constructor; cbn; discriminate.
  - repeat constructor; cbn; discriminate.
Defined.

(** ** The relocating path of [pure64_map_realloc] *)

(** X7.  When the lookup resolves [addr] to live record [i], its reserved bytes
    do not suffice and the placement [addr2] lies outside the table, the
    call returns [addr2]; the table is the old one with record [i] replaced
    by [{addr2, size, round_boundary size}], sorted; and the first
    [old_size] bytes of the old block arrive at [addr2] when the old block
    lies outside the table too and the new block does not start inside
    it. *)
Theorem realloc_relocates map m addr size i :
  table_fits map -> uint64 size -> addr <> NULL ->
  0 <= i < alloc_count map ->
  alloc_addr (read_alloc m (entry map i)) = addr ->
  (forall j, 0 <= j < i -> alloc_addr (read_alloc m (entry map j)) <> addr) ->
  alloc_reserved (read_alloc m (entry map i)) < size ->
  let addr2 := find_suitable_addr map m size in
  let moved := mk_alloc addr2 size (round_boundary size) in
  addr2 <> NULL -> 0 <= addr2 -> addr2 + size <= 2 ^ 64 ->
  (forall k, 0 <= k < size -> ~ in_table map (addr2 + k)) ->
  exists m',
    pure64_map_realloc map m addr size = Some (addr2, map, m') /\
    ascending (live_records map m') /\
    Permutation (live_records map (write_alloc m (entry map i) moved))
                (live_records map m') /\
    In moved (live_records map m') /\
    (forall old_size,
        old_size = alloc_size (read_alloc m (entry map i)) ->
        old_size <= size -> 0 <= addr -> addr + size <= 2 ^ 64 ->
        addr2 <= addr \/ addr + old_size <= addr2 ->
        (forall k, 0 <= k < old_size -> ~ in_table map (addr + k)) ->
        forall j, 0 <= j < old_size ->
          Mem.load8 m' (addr2 + j) = Mem.load8 m (addr + j)).
Proof. apply realloc_block_relocates. Qed.

(** Spec scenario S5: [p = malloc(0x800); realloc(p, 0x2000)] returns
    [0x101000] and the 0x800 bytes of [p] are found there. *)
Lemma realloc_relocates_witness :
  exists m',
    pure64_map_realloc (state_map block_0x800) (state_mem block_0x800)
                       0x100000 0x2000
      = Some (0x101000, state_map block_0x800, m') /\
    In (mk_alloc 0x101000 0x2000 0x2000)
       (live_records (state_map block_0x800) m') /\
    forall j, 0 <= j < 0x800 ->
      Mem.load8 m' (0x101000 + j)
      = Mem.load8 (state_mem block_0x800) (0x100000 + j).
Proof.
  set (map := state_map block_0x800). set (m := state_mem block_0x800).
  assert (Et : alloc_table map = 0x60030) by (vm_compute; reflexivity).
  assert (Ec : alloc_count map = 3) by (vm_compute; reflexivity).
  assert (E2 : find_suitable_addr map m 0x2000 = 0x101000)
    by (vm_compute; reflexivity).
  assert (Er : read_alloc m (entry map 2) = mk_alloc 0x100000 0x800 0x1000)
    by (vm_compute; reflexivity).
  assert (Hfit : table_fits map)
    by (unfold table_fits, sizeof_pure64_alloc; rewrite Et, Ec; two64; lia).
  assert (Hout : forall a, 0x100000 <= a -> ~ in_table map a)
    by (unfold in_table, sizeof_pure64_alloc; rewrite Et, Ec; intros; lia).
  pose proof (realloc_relocates map m 0x100000 0x2000 2 Hfit) as H.
  cbv zeta in H. rewrite E2, Er, Ec in H.
  cbn [alloc_addr alloc_size alloc_reserved] in H.
  destruct H as (m' & E & _ & _ & Hin & Hbytes).
  - unfold uint64; two64; lia.
  - discriminate.
  - lia.
  - reflexivity.
  - intros j Hj.
    assert (Hj' : j = 0 \/ j = 1) by lia.
    destruct Hj' as [-> | ->]; vm_compute; discriminate.
  - lia.
  - discriminate.
  - lia.
  - two64; lia.
  - intros k Hk. apply Hout. lia.
  - exists m'. split; [exact E|]. split; [exact Hin|].
    intros j Hj.
    apply (Hbytes 0x800);
      [reflexivity | lia | lia | two64; lia | lia | | exact Hj].
    intros k Hk. apply Hout. lia.
Defined.

(** ** The bootstrap of [pure64_map_init] *)

(** The search loop passes over entries that are not [init_suitable]. *)
Lemma init_scan_skip pre : forall l addr size,
  Forall (fun e => ~ init_suitable e) pre ->
  exists addr' size', init_scan (pre ++ l) addr size = init_scan l addr' size'.
Proof.
  induction pre as [|e pre IH]; intros l addr size Hpre.
  - now exists addr, size.
  - pose proof (Forall_inv Hpre) as He.
    pose proof (Forall_inv_tail Hpre) as Hpre'.
    cbn [app init_scan].
    destruct (e820_usable e) eqn:Hus; cbn [negb]; [|now apply IH].
    destruct (wrap64 (e820_addr e + e820_size e) <? 393216) eqn:Hend;
      [now apply IH|].
    apply Z.ltb_ge in Hend.
    destruct (e820_addr e <? 393216) eqn:Hlow.
    + apply Z.ltb_lt in Hlow.
      destruct (393216 - e820_addr e <? sizeof_pure64_alloc * 2) eqn:Hsz;
        [now apply IH|].
      apply Z.ltb_ge in Hsz. exfalso. apply He.
      split; [exact Hus|]. split; [exact Hend|]. left. lia.
    + apply Z.ltb_ge in Hlow.
      destruct (e820_size e <? sizeof_pure64_alloc * 2) eqn:Hsz;
        [now apply IH|].
      apply Z.ltb_ge in Hsz. exfalso. apply He.
      split; [exact Hus|]. split; [exact Hend|]. right. lia.
Qed.

(** ... and stops at the first one that is, with the table address clipped
    to [0x60000] from below. *)
Lemma init_scan_stop e rest addr size :
  init_suitable e ->
  exists size',
    init_scan (e :: rest) addr size
      = (e :: rest, Z.max (e820_addr e) 0x60000, size').
Proof.
  intros (Hus & Hend & Hroom). cbn [init_scan]. rewrite Hus. cbn [negb].
  apply Z.ltb_ge in Hend. rewrite Hend.
  destruct Hroom as [[Hlow Hsz] | [Hhigh Hsz]].
  - pose proof Hlow as Hlow'. apply Z.ltb_lt in Hlow'. rewrite Hlow'.
    assert (Hs : (393216 - e820_addr e <? sizeof_pure64_alloc * 2) = false)
      by (apply Z.ltb_ge; lia).
    rewrite Hs. exists (393216 - e820_addr e). f_equal. f_equal. lia.
  - pose proof Hhigh as Hhigh'. apply Z.ltb_ge in Hhigh'. rewrite Hhigh'.
    assert (Hs : (e820_size e <? sizeof_pure64_alloc * 2) = false)
      by (apply Z.ltb_ge; lia).
    rewrite Hs. exists (e820_size e). f_equal. f_equal. lia.
Qed.

(** X8.  The bootstrap puts the table at the first firmware entry that
    passes the tests of the search loop ([init_suitable]): usable, not
    ending below [0x60000], and with at least 48 bytes in what the loop
    takes for its size, which for an entry that starts below [0x60000] is
    the distance [0x60000 - addr] from its start up to [0x60000], not what
    lies above.  The table is at the start of that entry, or at [0x60000]
    when the entry starts lower; it holds the records
    [{0, 0x60000, 0x60000}] and [{table, 48, 48}], and only the 48 bytes of
    the table are written. *)
Theorem init_alloc_table_first_suitable pre e rest m :
  Forall (fun e => ~ init_suitable e) pre ->
  init_suitable e ->
  0 <= e820_addr e -> 0 <= e820_size e ->
  e820_addr e + e820_size e <= 2 ^ 64 ->
  let fw := pre ++ e :: rest in
  let table := Z.max (e820_addr e) 0x60000 in
  let map' := mk_map fw table 2 NULL in
  exists m',
    init_alloc_table fw m = (map', m') /\
    live_records map' m' =
      [mk_alloc 0 0x60000 0x60000; mk_alloc table 48 48] /\
    (forall a, ~ in_table map' a -> m' a = m a).
Proof.
  intros Hpre He Ha Hs Hend fw table map'.
  destruct (init_scan_skip pre (e :: rest) 0 0 Hpre) as (a0 & s0 & E0).
  destruct (init_scan_stop e rest a0 s0 He) as (s1 & E1).
  assert (Htab : 0x60000 <= table /\ table + 48 <= 2 ^ 64).
  { destruct He as (_ & _ & Hroom). unfold table, sizeof_pure64_alloc in *.
    two64. lia. }
  assert (Hfit : table_fits map').
  { unfold table_fits, sizeof_pure64_alloc. cbn [map' alloc_table alloc_count].
    two64. lia. }
  set (m' := write_alloc
               (write_alloc m (entry map' 0) (mk_alloc 0 0x60000 0x60000))
               (entry map' 1) (mk_alloc table 48 48)).
  assert (E : init_alloc_table fw m = (map', m')).
  { unfold init_alloc_table. unfold fw. rewrite E0, E1. reflexivity. }
  exists m'. split; [exact E|]. split.
  - unfold live_records. cbn [map' alloc_count].
    change (Z.to_nat 2) with 2%nat. cbn [seq List.map].
    change (Z.of_nat 0) with 0. change (Z.of_nat 1) with 1.
    unfold m'. f_equal; [|f_equal].
    + rewrite read_write_alloc_other.
      * apply read_write_alloc_same. repeat split; cbn; two64; lia.
      * apply (entries_apart map' Hfit 1 0); cbn; lia.
    + apply read_write_alloc_same.
      repeat split; cbn [alloc_addr alloc_size alloc_reserved];
        unfold uint64; two64; lia.
  - intros a Hout. unfold m'.
    rewrite (write_alloc_outside_table map' Hfit) by (cbn; auto; lia).
    apply (write_alloc_outside_table map' Hfit); [cbn; lia | exact Hout].
Qed.

Lemma init_alloc_table_first_suitable_witness :
  exists m',
    init_alloc_table
      [mk_e820 0 0x9FC00 false; mk_e820 0x1000 0x100 true;
       mk_e820 0x5F000 0x100000 true; mk_e820 0x200000 0x100000 true]
      zero_mem
    = (mk_map [mk_e820 0 0x9FC00 false; mk_e820 0x1000 0x100 true;
               mk_e820 0x5F000 0x100000 true; mk_e820 0x200000 0x100000 true]
              0x60000 2 NULL, m').
Proof.
  destruct (init_alloc_table_first_suitable
              [mk_e820 0 0x9FC00 false; mk_e820 0x1000 0x100 true]
              (mk_e820 0x5F000 0x100000 true)
              [mk_e820 0x200000 0x100000 true] zero_mem)
    as (m' & E & _).
  - repeat constructor; unfold init_suitable; cbn; intros (Hu & He & Hr).
    + discriminate.
    + vm_compute in He. now apply He.
  - unfold init_suitable; cbn. split; [reflexivity|].
    split; [vm_compute; discriminate|]. left.
    unfold sizeof_pure64_alloc. lia.
  - cbn; lia.
  - cbn; lia.
  - cbn; two64; lia.
  - exists m'. exact E.
Defined.

(** X9.  When no firmware entry is suitable, [pure64_map_init] leaves the map
    without a table (address [NULL], count [0]) and without a driver, and
    writes nothing, the set-up of the driver not being run; every later
    [pure64_map_malloc] then returns [NULL]. *)
Theorem init_without_suitable_region fw m dsz ahci_setup :
  Forall (fun e => ~ init_suitable e) fw ->
  pure64_map_init fw m dsz ahci_setup = Some (mk_map fw NULL 0 NULL, m) /\
  forall m1 size,
    pure64_map_malloc (mk_map fw NULL 0 NULL) m1 size
      = Some (NULL, mk_map fw NULL 0 NULL, m1).
Proof.
  intros Hfw.
  assert (Hm : forall m1 size,
             pure64_map_malloc (mk_map fw NULL 0 NULL) m1 size
             = Some (NULL, mk_map fw NULL 0 NULL, m1)) by reflexivity.
  split; [|exact Hm].
  destruct (init_scan_skip fw [] 0 0) as (a0 & s0 & E0); [exact Hfw|].
  rewrite app_nil_r in E0. cbn [init_scan] in E0.
  unfold pure64_map_init, init_alloc_table. rewrite E0.
  cbn [set_table alloc_table alloc_count e820 ahci_driver].
  rewrite Hm. reflexivity.
Qed.

Lemma init_without_suitable_region_witness :
  pure64_map_init [mk_e820 0 0x9FC00 false; mk_e820 0x1000 0x100 true;
                   mk_e820 0x60000 0x20 true] zero_mem 0x400
                  (fun _ _ => None)
  = Some (mk_map [mk_e820 0 0x9FC00 false; mk_e820 0x1000 0x100 true;
                  mk_e820 0x60000 0x20 true] NULL 0 NULL, zero_mem).
Proof.
  apply (init_without_suitable_region _ _ _ (fun _ _ => None)).
  repeat constructor; unfold init_suitable; cbn; intros (Hu & He & Hr).
  - discriminate.
  - vm_compute in He. now apply He.
  - unfold sizeof_pure64_alloc in Hr. lia.
Defined.

(** ** Rounding to the page boundary *)

Lemma round_boundary_bounds size :
  0 <= size <= 2 ^ 64 - 4096 ->
  size <= round_boundary size < size + 4096 /\
  round_boundary size mod 4096 = 0.
Proof.
  intros Hs. unfold round_boundary, BOUNDARY.
  pose proof (Z.mod_pos_bound size 4096 ltac:(lia)) as Hm.
  pose proof (Z.div_mod size 4096 ltac:(lia)) as Hd.
  destruct (Z.eqb_spec (size mod 4096) 0) as [E | E]; cbn [negb].
  - split; [lia | exact E].
  - rewrite wrap64_small by (two64; lia). split; [lia|].
    replace (size + (4096 - size mod 4096))
      with ((size / 4096 + 1) * 4096) by lia.
    apply Z.mod_mul. lia.
Qed.

(** X10.  For every request of at most [2^64 - 4096] bytes a successful
    [pure64_map_malloc] records the requested size and reserves at least
    that much, less than one page more. *)
Theorem malloc_reserves_at_least_size map m size :
  table_fits map -> fw_in_range (e820 map) ->
  0 <= size <= 2 ^ 64 - 4096 ->
  exists p map' m',
    pure64_map_malloc map m size = Some (p, map', m') /\
    (p <> NULL ->
     alloc_addr (last_record map' m') = p /\
     alloc_size (last_record map' m') = size /\
     size <= alloc_reserved (last_record map' m') < size + 4096).
Proof.
  intros Hfit Hfw Hs.
  assert (Hu : uint64 size) by (unfold uint64; two64; lia).
  destruct (malloc_returns_and_appends map m size Hfit Hu Hfw)
    as (p & map' & m' & E & Hrec).
  exists p, map', m'. split; [exact E|]. intros Hp.
  destruct (Hrec Hp) as (-> & _ & _).
  cbn [alloc_addr alloc_size alloc_reserved].
  split; [reflexivity|]. split; [reflexivity|].
  apply round_boundary_bounds. exact Hs.
Qed.

Lemma malloc_reserves_at_least_size_witness :
  exists p map' m',
    pure64_map_malloc (boot_map fw_one) (boot_mem fw_one) 0x1234
      = Some (p, map', m') /\
    (p <> NULL ->
     alloc_addr (last_record map' m') = p /\
     alloc_size (last_record map' m') = 0x1234 /\
     0x1234 <= alloc_reserved (last_record map' m') < 0x1234 + 4096).
Proof.
  apply malloc_reserves_at_least_size.
  - exact boot_one_table_fits.
  - exact boot_one_fw_in_range.
  - two64; lia.
Defined.

(** ** Placement by [find_suitable_addr] *)

(** The table scan reads the live records in order. *)
Lemma scan_allocs_list map m size addr2 size2 n : forall k addr,
  scan_allocs n (Z.of_nat k) map m size addr2 size2 addr =
  scan_list (List.map (fun i => read_alloc m (entry map (Z.of_nat i)))
                      (seq k n))
            (Z.of_nat k) size addr2 size2 addr.
Proof.
  induction n as [|n IH]; intros k addr; [reflexivity|].
  cbn [scan_allocs seq List.map scan_list].
  unfold read_alloc at 1 2 3. cbn [alloc_addr alloc_reserved].
  replace (Z.of_nat k + 1) with (Z.of_nat (S k)) by lia.
  rewrite !IH. reflexivity.
Qed.

Lemma scan_allocs_live map m size addr2 size2 addr :
  scan_allocs (Z.to_nat (alloc_count map)) 0 map m size addr2 size2 addr =
  scan_list (live_records map m) 0 size addr2 size2 addr.
Proof. apply (scan_allocs_list map m size addr2 size2 _ 0%nat). Qed.

(** The scan of an empty table returns the start of the entry. *)
Lemma scan_list_break l : forall i size addr2 size2 addr,
  i <= fst (scan_list l i size addr2 size2 addr) <= i + Z.of_nat (length l).
Proof.
  induction l as [|r t IH]; intros i size addr2 size2 addr;
    cbn [scan_list length fst]; [lia|].
  destruct (_ && _).
  - destruct (_ >=? _); cbn [fst]; [lia|].
    specialize (IH (i + 1) size addr2 size2
                   (wrap64 (alloc_addr r + alloc_reserved r))). lia.
  - specialize (IH (i + 1) size addr2 size2 addr). lia.
Qed.

(** Records that all start at or above the end of the candidate leave it
    where it is. *)
Lemma scan_list_idle size addr2 size2 addr l :
  0 <= addr -> 0 <= size -> addr + size < 2 ^ 64 ->
  Forall (fun r => addr + size <= alloc_addr r) l ->
  forall i, scan_list l i size addr2 size2 addr
            = (i + Z.of_nat (length l), addr).
Proof.
  intros Ha Hs0 Hs. induction l as [|r t IH]; intros Hall i;
    cbn [scan_list length].
  - f_equal. lia.
  - pose proof (Forall_inv Hall) as Hr. cbv beta in Hr.
    rewrite wrap64_small by (two64; lia).
    assert (E : (addr + size >? alloc_addr r) = false)
      by (rewrite Z.gtb_ltb; apply Z.ltb_ge; lia).
    rewrite E. cbn [andb]. rewrite IH by exact (Forall_inv_tail Hall).
    f_equal. lia.
Qed.

(** The scan of a table of disjoint ascending records, when it runs to the
    end: the candidate only moves up, stays inside the firmware entry and
    is clear of every record scanned. *)
Lemma scan_list_sound size addr2 size2 :
  0 < size -> 0 <= addr2 -> addr2 + size2 < 2 ^ 64 ->
  forall l i addr j p,
    disjoint_ascending l ->
    Forall (fun r => 0 <= alloc_addr r /\ 0 <= alloc_reserved r /\
                     alloc_addr r + alloc_reserved r + size < 2 ^ 64) l ->
    addr2 <= addr -> addr + size <= addr2 + size2 ->
    Forall (fun r => alloc_addr r < addr ->
                     alloc_addr r + alloc_reserved r <= addr) l ->
    scan_list l i size addr2 size2 addr = (j, p) ->
    i + Z.of_nat (length l) <= j ->
    addr <= p /\ p + size <= addr2 + size2 /\ Forall (clear_of p size) l.
Proof.
  intros Hsize Ha2 Hend.
  induction l as [|r t IH]; intros i addr j p Hsort Hrange Hlow Hfit Hbelow E Hj.
  - cbn [scan_list] in E. apply pair_equal_spec in E as [_ <-].
    split; [lia|]. split; [lia | constructor].
  - apply StronglySorted_inv in Hsort as [Hsort Hr].
    pose proof (Forall_inv Hrange) as (Hra & Hrr & Hre).
    pose proof (Forall_inv_tail Hrange) as Hrange'.
    pose proof (Forall_inv Hbelow) as Hrb. cbv beta in Hrb.
    pose proof (Forall_inv_tail Hbelow) as Hbelow'.
    cbn [scan_list length] in E, Hj.
    rewrite (wrap64_small (addr + size)) in E by (two64; lia).
    destruct ((addr + size >? alloc_addr r) && (addr <=? alloc_addr r))
      eqn:Hc.
    + apply andb_prop in Hc as [Hc1 Hc2].
      rewrite Z.gtb_ltb in Hc1. apply Z.ltb_lt in Hc1. apply Z.leb_le in Hc2.
      rewrite (wrap64_small (alloc_addr r + alloc_reserved r)) in E
        by (two64; lia).
      rewrite (wrap64_small (alloc_addr r + alloc_reserved r + size)) in E
        by (two64; lia).
      rewrite (wrap64_small (addr2 + size2)) in E by (two64; lia).
      destruct (alloc_addr r + alloc_reserved r + size >=? addr2 + size2)
        eqn:Hstop.
      * apply pair_equal_spec in E as [<- _]. lia.
      * rewrite Z.geb_leb in Hstop. apply Z.leb_gt in Hstop.
        destruct (IH (i + 1) (alloc_addr r + alloc_reserved r) j p)
          as (Hp & Hin & Hclear); auto; try lia.
        { rewrite Forall_forall in Hr |- *. intros s Hs Hlt.
          specialize (Hr s Hs). unfold ends_before in Hr. lia. }
        split; [lia|]. split; [exact Hin|].
        constructor; [right; lia | exact Hclear].
    + destruct (IH (i + 1) addr j p) as (Hp & Hin & Hclear); auto; try lia.
      split; [exact Hp|]. split; [exact Hin|].
      constructor; [|exact Hclear].
      apply andb_false_iff in Hc as [Hc | Hc].
      * rewrite Z.gtb_ltb in Hc. apply Z.ltb_ge in Hc.
        assert (Hidle : scan_list t (i + 1) size addr2 size2 addr
                        = (i + 1 + Z.of_nat (length t), addr)).
        { apply scan_list_idle; [lia | lia | two64; lia |].
          rewrite Forall_forall in Hr |- *. intros s Hs.
          specialize (Hr s Hs). unfold ends_before in Hr. lia. }
        rewrite Hidle in E. apply pair_equal_spec in E as [_ <-].
        left. lia.
      * apply Z.leb_gt in Hc. right. lia.
Qed.

Lemma find_suitable_loop_sound map m size :
  0 <= alloc_count map -> 0 < size ->
  disjoint_ascending (live_records map m) ->
  Forall (fun r => alloc_addr r + alloc_reserved r + size < 2 ^ 64)
         (live_records map m) ->
  forall cursor,
    fw_no_wrap cursor ->
    no_straddle cursor (live_records map m) ->
    find_suitable_loop cursor map m size <> NULL ->
    in_usable cursor (find_suitable_loop cursor map m size) size /\
    Forall (clear_of (find_suitable_loop cursor map m size) size)
           (live_records map m).
Proof.
  intros Hcount Hsize Hsort Hends.
  assert (Hrange : Forall (fun r => 0 <= alloc_addr r /\
                                    0 <= alloc_reserved r /\
                                    alloc_addr r + alloc_reserved r + size
                                    < 2 ^ 64) (live_records map m)).
  { rewrite Forall_forall in Hends |- *. intros r Hr.
    specialize (Hends r Hr). unfold live_records in Hr.
    apply in_map_iff in Hr as (k & <- & _).
    destruct (read_alloc_in_range m (entry map (Z.of_nat k)))
      as (Ha & _ & Hres).
    unfold uint64 in *. repeat split; lia. }
  induction cursor as [|e next IH]; intros Hfw Hstr Hnn;
    cbn [find_suitable_loop] in *; [congruence|].
  pose proof (Forall_inv Hfw) as (Hea & Hes & Hee).
  pose proof (Forall_inv_tail Hfw) as Hfw'.
  pose proof (Forall_inv Hstr) as Hse.
  pose proof (Forall_inv_tail Hstr) as Hstr'.
  assert (Hnext : find_suitable_loop next map m size <> NULL ->
                  in_usable (e :: next)
                            (find_suitable_loop next map m size) size /\
                  Forall (clear_of (find_suitable_loop next map m size) size)
                         (live_records map m)).
  { intros H. destruct (IH Hfw' Hstr' H) as ((e' & Hin & Hrest) & Hclear).
    split; [|exact Hclear]. exists e'. split; [now right | exact Hrest]. }
  destruct (e820_usable e) eqn:Hus; cbn [negb] in *; [|now apply Hnext].
  destruct (e820_size e <? size) eqn:Hsz; [now apply Hnext|].
  apply Z.ltb_ge in Hsz.
  rewrite scan_allocs_live in *.
  destruct (scan_list (live_records map m) 0 size (e820_addr e)
                      (e820_size e) (e820_addr e)) as [j p] eqn:E.
  destruct (j <? alloc_count map) eqn:Hj; [now apply Hnext|].
  apply Z.ltb_ge in Hj.
  destruct (scan_list_sound size (e820_addr e) (e820_size e) Hsize Hea Hee
              (live_records map m) 0 (e820_addr e) j p)
    as (Hp & Hin & Hclear); auto; try lia.
  { rewrite length_live_records. lia. }
  split; [|exact Hclear].
  exists e. split; [now left|]. split; [exact Hus|]. lia.
Qed.

(** X11.  On a table of disjoint ascending records none of which reaches
    into a usable firmware entry from below, the address that
    [find_suitable_addr] returns for [size > 0] bytes, when it is not
    [NULL], starts a block that lies inside one usable firmware entry and
    meets no live record. *)
Theorem find_suitable_addr_sound map m size :
  0 <= alloc_count map -> 0 < size ->
  fw_no_wrap (e820 map) ->
  disjoint_ascending (live_records map m) ->
  Forall (fun r => alloc_addr r + alloc_reserved r + size < 2 ^ 64)
         (live_records map m) ->
  no_straddle (e820 map) (live_records map m) ->
  find_suitable_addr map m size <> NULL ->
  in_usable (e820 map) (find_suitable_addr map m size) size /\
  Forall (clear_of (find_suitable_addr map m size) size)
         (live_records map m).
Proof.
  intros Hcount Hsize Hfw Hsort Hends Hstr Hnn.
  now apply find_suitable_loop_sound.
Qed.

Lemma find_suitable_addr_sound_witness :
  in_usable (e820 (boot_map fw_one))
            (find_suitable_addr (boot_map fw_one) (boot_mem fw_one) 0x1000)
            0x1000 /\
  Forall (clear_of (find_suitable_addr (boot_map fw_one) (boot_mem fw_one)
                                       0x1000) 0x1000)
         (live_records (boot_map fw_one) (boot_mem fw_one)).
Proof.
  assert (L : live_records (boot_map fw_one) (boot_mem fw_one) =
              [mk_alloc 0 0x60000 0x60000; mk_alloc 0x60000 48 48])
    by (vm_compute; reflexivity).
  assert (F : e820 (boot_map fw_one) = fw_one) by (vm_compute; reflexivity).
  apply find_suitable_addr_sound.
  - vm_compute; discriminate.
  - lia.
  - rewrite F. repeat constructor; cbn; two64; lia.
  - rewrite L. repeat constructor; unfold ends_before; cbn; lia.
  - rewrite L. repeat constructor; cbn; two64; lia.
  - rewrite F, L. constructor; [|constructor].
    intros _. repeat constructor; cbn; lia.
  - vm_compute; discriminate.
Defined.

(** A non-null result of [pure64_map_malloc] is the address that
    [find_suitable_addr] chose for the rounded size. *)
Lemma malloc_address map m size p map' m' :
  pure64_map_malloc map m size = Some (p, map', m') -> p <> NULL ->
  p = find_suitable_addr map m (round_boundary size).
Proof.
  unfold pure64_map_malloc.
  destruct (alloc_table map =? NULL);
    [intros E Hp; apply some_pair_inv in E; destruct E as [E _];
     apply pair_equal_spec in E as [E _]; congruence|].
  destruct (find_suitable_addr map m (round_boundary size) =? NULL);
    [intros E Hp; apply some_pair_inv in E; destruct E as [E _];
     apply pair_equal_spec in E as [E _]; congruence|].
  destruct (append_alloc _ _ _) as [[[rc map1] m1]|]; [|discriminate].
  destruct (negb _); intros E Hp; apply some_pair_inv in E;
    destruct E as [E _]; apply pair_equal_spec in E as [E _]; congruence.
Qed.

(** X12.  The block of a successful [pure64_map_malloc], taken with its
    whole reservation, lies inside one usable firmware entry and meets none
    of the records that were live at the call, on a table of disjoint
    ascending records none of which reaches into a usable entry from
    below. *)
Theorem malloc_block_is_free map m size :
  table_fits map -> 0 < size <= 2 ^ 64 - 4096 ->
  fw_no_wrap (e820 map) ->
  disjoint_ascending (live_records map m) ->
  Forall (fun r => alloc_addr r + alloc_reserved r + round_boundary size
                   < 2 ^ 64) (live_records map m) ->
  no_straddle (e820 map) (live_records map m) ->
  exists p map' m',
    pure64_map_malloc map m size = Some (p, map', m') /\
    (p <> NULL ->
     in_usable (e820 map) p (round_boundary size) /\
     Forall (clear_of p (round_boundary size)) (live_records map m)).
Proof.
  intros Hfit Hsize Hfw Hsort Hends Hstr.
  destruct (malloc_returns map Hfit m size) as ([[p map'] m'] & E).
  exists p, map', m'. split; [exact E|]. intros Hp.
  pose proof (malloc_address _ _ _ _ _ _ E Hp) as ->.
  pose proof (round_boundary_bounds size ltac:(lia)) as [Hrb _].
  pose proof Hfit as (_ & Hc & _).
  apply find_suitable_loop_sound; auto. lia.
Qed.

Lemma malloc_block_is_free_witness :
  exists p map' m',
    pure64_map_malloc (boot_map fw_one) (boot_mem fw_one) 0x800
      = Some (p, map', m') /\
    (p <> NULL ->
     in_usable (e820 (boot_map fw_one)) p (round_boundary 0x800) /\
     Forall (clear_of p (round_boundary 0x800))
            (live_records (boot_map fw_one) (boot_mem fw_one))).
Proof.
  assert (L : live_records (boot_map fw_one) (boot_mem fw_one) =
              [mk_alloc 0 0x60000 0x60000; mk_alloc 0x60000 48 48])
    by (vm_compute; reflexivity).
  assert (F : e820 (boot_map fw_one) = fw_one) by (vm_compute; reflexivity).
  assert (R : round_boundary 0x800 = 0x1000) by (vm_compute; reflexivity).
  apply malloc_block_is_free.
  - exact boot_one_table_fits.
  - two64; lia.
  - rewrite F. repeat constructor; cbn; two64; lia.
  - rewrite L. repeat constructor; unfold ends_before; cbn; lia.
  - rewrite L, R. repeat constructor; cbn; two64; lia.
  - rewrite F, L. constructor; [|constructor].
    intros _. repeat constructor; cbn; lia.
Defined.

(** X13.  When every firmware entry is unusable or shorter than the rounded
    request, [find_suitable_addr] finds nothing and [pure64_map_malloc]
    returns [NULL] with the map and the memory as they were. *)
Theorem malloc_without_room map m size :
  Forall (fun e => e820_usable e = false \/
                   e820_size e < round_boundary size) (e820 map) ->
  find_suitable_addr map m (round_boundary size) = NULL /\
  pure64_map_malloc map m size = Some (NULL, map, m).
Proof.
  intros Hfw.
  assert (E : find_suitable_addr map m (round_boundary size) = NULL).
  { unfold find_suitable_addr.
    induction (e820 map) as [|e next IH]; [reflexivity|].
    cbn [find_suitable_loop].
    pose proof (Forall_inv Hfw) as He. cbv beta in He.
    specialize (IH (Forall_inv_tail Hfw)).
    destruct He as [-> | He]; cbn [negb]; [exact IH|].
    destruct (negb _); [exact IH|].
    apply Z.ltb_lt in He. rewrite He. exact IH. }
  split; [exact E|].
  unfold pure64_map_malloc. rewrite E.
  destruct (alloc_table map =? NULL); reflexivity.
Qed.

Lemma malloc_without_room_witness :
  find_suitable_addr (boot_map fw_one) (boot_mem fw_one)
                     (round_boundary 0x1000000) = NULL /\
  pure64_map_malloc (boot_map fw_one) (boot_mem fw_one) 0x1000000
    = Some (NULL, boot_map fw_one, boot_mem fw_one).
Proof.
  apply malloc_without_room.
  assert (F : e820 (boot_map fw_one) = fw_one) by (vm_compute; reflexivity).
  rewrite F. constructor; [|constructor]. right. vm_compute. reflexivity.
Defined.

(** ** The driver's trampolines *)

Lemma wrap32_range z : 0 <= wrap32 z < 2 ^ 32.
Proof. unfold wrap32. apply Z.mod_pos_bound. lia. Qed.

(** X14.  A request made through [ahci_malloc] carries a 32-bit size, so its
    rounding cannot wrap: on success the record holds the truncated size
    and a reservation of at least that much, whatever the argument. *)
Theorem ahci_malloc_reserves_its_size map m size :
  table_fits map -> fw_in_range (e820 map) ->
  exists p map' m',
    ahci_malloc map m size = Some (p, map', m') /\
    (p <> NULL ->
     last_record map' m'
       = mk_alloc p (wrap32 size) (round_boundary (wrap32 size)) /\
     wrap32 size <= round_boundary (wrap32 size) < wrap32 size + 4096).
Proof.
  intros Hfit Hfw. unfold ahci_malloc.
  pose proof (wrap32_range size) as Hr.
  assert (Hu : uint64 (wrap32 size))
    by (unfold uint64; two64; change (2 ^ 32) with 4294967296 in Hr; lia).
  destruct (malloc_returns_and_appends map m (wrap32 size) Hfit Hu Hfw)
    as (p & map' & m' & E & Hrec).
  exists p, map', m'. split; [exact E|]. intros Hp.
  destruct (Hrec Hp) as (Hl & _ & _). split; [exact Hl|].
  apply round_boundary_bounds.
  two64. change (2 ^ 32) with 4294967296 in Hr. lia.
Qed.

Lemma ahci_malloc_reserves_its_size_witness :
  exists p map' m',
    ahci_malloc (boot_map fw_one) (boot_mem fw_one) 0x100000801
      = Some (p, map', m') /\
    (p <> NULL ->
     last_record map' m'
       = mk_alloc p (wrap32 0x100000801)
                  (round_boundary (wrap32 0x100000801)) /\
     wrap32 0x100000801 <= round_boundary (wrap32 0x100000801)
       < wrap32 0x100000801 + 4096).
Proof.
  apply ahci_malloc_reserves_its_size.
  - exact boot_one_table_fits.
  - exact boot_one_fw_in_range.
Defined.

(** ** [pure64_map_malloc] while the table has room *)

(** Storing a size in slot [length pre] replaces the [size] of that record
    and nothing else in the table. *)
Lemma live_records_store_size map m pre x rest v :
  table_fits map -> uint64 v ->
  live_records map m = pre ++ x :: rest ->
  live_records map
    (Mem.store64 m (entry map (Z.of_nat (length pre)) + off_size) v)
  = pre ++ mk_alloc (alloc_addr x) v (alloc_reserved x) :: rest.
Proof.
  intros Hfit Hv Hl.
  assert (Hlen : length (pre ++ x :: rest) = Z.to_nat (alloc_count map))
    by (rewrite <- Hl; apply length_live_records).
  rewrite length_app in Hlen; cbn [length] in Hlen.
  pose proof (live_records_slot map m pre x rest Hl) as Hx.
  assert (Hi : 0 <= Z.of_nat (length pre) < alloc_count map) by lia.
  destruct (entry_fits map Hfit _ Hi) as (Ei & Hpos & Hend).
  apply nth_error_ext. intros n.
  rewrite (nth_error_middle pre rest _ x n), <- Hl, !live_records_nth_error.
  destruct (Nat.eqb_spec n (length pre)) as [-> | Hn].
  - destruct (Nat.ltb_spec (length pre) (Z.to_nat (alloc_count map))); [|lia].
    f_equal. rewrite <- Hx.
    unfold read_alloc; cbn [alloc_addr alloc_reserved].
    unfold off_addr, off_size, off_reserved, sizeof_pure64_alloc in *.
    f_equal.
    + apply MemFacts.load64_store64_other. apply apart_below; two64; lia.
    + now apply MemFacts.load64_store64_same.
    + apply MemFacts.load64_store64_other. apply apart_above; two64; lia.
  - destruct (Nat.ltb_spec n (Z.to_nat (alloc_count map))) as [Hlt|];
      [|reflexivity].
    f_equal.
    assert (Hn' : 0 <= Z.of_nat n < alloc_count map) by lia.
    destruct (entry_fits map Hfit _ Hn') as (En & Hposn & Hendn).
    pose proof Hfit as (_ & _ & Hfits).
    unfold read_alloc, off_addr, off_size, off_reserved,
      sizeof_pure64_alloc in *.
    assert (Hcase : Z.of_nat n < Z.of_nat (length pre)
                    \/ Z.of_nat (length pre) < Z.of_nat n) by lia.
    f_equal; apply MemFacts.load64_store64_other;
      (destruct Hcase; [apply apart_below | apply apart_above]);
      two64; lia.
Qed.

(** [pure64_map_malloc] when the table's record has a slot to spare. *)
Lemma malloc_with_spare_slot map m size pre t rest :
  table_fits (set_count map (alloc_count map + 1)) ->
  uint64 size -> fw_in_range (e820 map) ->
  live_records map m = pre ++ t :: rest ->
  alloc_addr t = alloc_table map ->
  Forall (fun r => alloc_addr r <> alloc_table map) pre ->
  (alloc_count map + 1) * sizeof_pure64_alloc <= alloc_reserved t ->
  let p := find_suitable_addr map m (round_boundary size) in
  let map' := set_count map (alloc_count map + 1) in
  p <> NULL ->
  exists m',
    pure64_map_malloc map m size = Some (p, map', m') /\
    live_records map' m' =
      pre ++ mk_alloc (alloc_table map)
                      ((alloc_count map + 1) * sizeof_pure64_alloc)
                      (alloc_reserved t)
          :: rest ++ [mk_alloc p size (round_boundary size)] /\
    (forall a, ~ in_table map' a -> m' a = m a).
Proof.
  intros Hfit' Hsize Hfw Hl Ht Hpre Hroom p map' Hp.
  pose proof Hfit' as (Htab & Hc' & Hend').
  cbn [set_count alloc_table alloc_count] in Htab, Hc', Hend'.
  unfold sizeof_pure64_alloc in *.
  assert (Hlen : length (pre ++ t :: rest) = Z.to_nat (alloc_count map))
    by (rewrite <- Hl; apply length_live_records).
  rewrite length_app in Hlen; cbn [length] in Hlen.
  assert (Hcount : 0 < alloc_count map) by lia.
  assert (Hfit : table_fits map)
    by (unfold table_fits, sizeof_pure64_alloc; lia).
  set (i := Z.of_nat (length pre)).
  assert (Hi : 0 <= i < alloc_count map) by lia.
  destruct (entry_fits map Hfit i Hi) as (Ei & Hpos & Hend).
  unfold sizeof_pure64_alloc in *.
  pose proof (live_records_slot map m pre t rest Hl) as Hslot. fold i in Hslot.
  set (tsize := (alloc_count map + 1) * 24) in *.
  assert (Hw : wrap64 (wrap64 (alloc_count map + 1) * sizeof_pure64_alloc)
               = tsize).
  { unfold sizeof_pure64_alloc, tsize.
    rewrite (wrap64_small (alloc_count map + 1)) by (two64; lia).
    apply wrap64_small. two64. lia. }
  assert (Hw1 : wrap64 (alloc_count map + 1) = alloc_count map + 1)
    by (apply wrap64_small; two64; lia).
  set (m1 := Mem.store64 m (entry map i + off_size) tsize).
  assert (Hfind : find_alloc_entry map m (alloc_table map) = entry map i).
  { unfold find_alloc_entry.
    rewrite (find_alloc_loop_hit _ 0 i map m (alloc_table map));
      rewrite ?Z.add_0_l; [reflexivity | lia | |].
    - change (alloc_addr (read_alloc m (entry map i)) = alloc_table map).
      now rewrite Hslot.
    - intros k Hk. rewrite Z.add_0_l.
      change (alloc_addr (read_alloc m (entry map k)) <> alloc_table map).
      assert (Hnth : nth_error (live_records map m) (Z.to_nat k)
                     = Some (read_alloc m (entry map k)))
        by (apply live_records_nth; lia).
      rewrite Hl, nth_error_app1 in Hnth by (unfold i in Hk; lia).
      apply nth_error_In in Hnth.
      rewrite Forall_forall in Hpre. now apply Hpre. }
  assert (Hgrow : realloc_block map m (alloc_table map)
                    (wrap64 (wrap64 (alloc_count map + 1)
                             * sizeof_pure64_alloc))
                  = Some (alloc_table map, map, m1)).
  { rewrite Hw. unfold realloc_block. rewrite Hfind.
    assert (Hz : (entry map i =? NULL) = false)
      by (apply Z.eqb_neq; unfold NULL; lia).
    rewrite Hz.
    change (Mem.load64 m (entry map i + off_reserved))
      with (alloc_reserved (read_alloc m (entry map i))).
    rewrite Hslot.
    assert (Hge : (alloc_reserved t >=? tsize) = true)
      by (rewrite Z.geb_leb; apply Z.leb_le; exact Hroom).
    rewrite Hge. reflexivity. }
  assert (Hmap : set_table map (alloc_table map)
                           (wrap64 (alloc_count map + 1)) = map')
    by (rewrite Hw1; reflexivity).
  assert (Hp' : uint64 p) by now apply find_suitable_addr_range.
  set (new := mk_alloc p size (round_boundary size)).
  assert (Hnew : alloc_in_range new).
  { repeat split; cbn [new alloc_addr alloc_size alloc_reserved];
      try apply Hp'; try apply Hsize; now apply round_boundary_range. }
  pose proof (malloc_success_path map m size p (alloc_table map) m1
                ltac:(unfold NULL; lia) eq_refl Hp Hgrow
                ltac:(unfold NULL; lia)) as E.
  cbv zeta in E. rewrite Hmap in E. fold new in E.
  assert (Hlast : wrap64 (alloc_count map' - 1) = alloc_count map' - 1).
  { cbn [map' set_count alloc_count]. apply wrap64_small. two64. lia. }
  rewrite Hlast in E.
  eexists. split; [exact E|]. split.
  - rewrite (live_records_snoc map' _ new Hfit')
      by (auto; cbn [map' set_count alloc_count]; lia).
    replace (set_count map' (alloc_count map' - 1)) with map.
    + unfold m1, i, tsize.
      rewrite (live_records_store_size map m pre t rest _ Hfit) by
        (auto; unfold uint64; two64; lia).
      rewrite Ht, <- app_assoc. reflexivity.
    + destruct map as [fw tbl cnt drv].
      unfold map', set_count; cbn [e820 alloc_table alloc_count ahci_driver].
      f_equal. lia.
  - intros a Ha.
    rewrite (write_alloc_outside_table map' Hfit')
      by (auto; cbn [map' set_count alloc_count]; lia).
    unfold m1. apply MemFacts.store64_other. intros k Hk Hak. apply Ha.
    subst a. unfold in_table, off_size, sizeof_pure64_alloc.
    cbn [map' set_count alloc_table alloc_count].
    rewrite wrap64_small by (two64; lia). lia.
Qed.

(** X15.  While the record of the table has room for one more slot,
    [pure64_map_malloc] leaves the table where it is: the table's record
    takes the new table size, the new record [{p, size, rounded size}] goes
    into the slot behind the last one, every other record stays, and no
    byte outside the grown table is written. *)
Theorem malloc_in_place map m size pre t rest :
  table_fits (set_count map (alloc_count map + 1)) ->
  uint64 size -> fw_in_range (e820 map) ->
  live_records map m = pre ++ t :: rest ->
  alloc_addr t = alloc_table map ->
  Forall (fun r => alloc_addr r <> alloc_table map) pre ->
  (alloc_count map + 1) * sizeof_pure64_alloc <= alloc_reserved t ->
  let p := find_suitable_addr map m (round_boundary size) in
  let map' := set_count map (alloc_count map + 1) in
  p <> NULL ->
  exists m',
    pure64_map_malloc map m size = Some (p, map', m') /\
    live_records map' m' =
      pre ++ mk_alloc (alloc_table map)
                      ((alloc_count map + 1) * sizeof_pure64_alloc)
                      (alloc_reserved t)
          :: rest ++ [mk_alloc p size (round_boundary size)] /\
    (forall a, ~ in_table map' a -> m' a = m a).
Proof. apply malloc_with_spare_slot. Qed.

Lemma malloc_in_place_witness :
  exists m',
    pure64_map_malloc (state_map block_0x800) (state_mem block_0x800) 0x800
      = Some (0x101000, set_count (state_map block_0x800) 4, m') /\
    live_records (set_count (state_map block_0x800) 4) m' =
      [mk_alloc 0 0x60000 0x60000; mk_alloc 0x60030 96 0x1000;
       mk_alloc 0x100000 0x800 0x1000; mk_alloc 0x101000 0x800 0x1000].
Proof.
  set (map := state_map block_0x800). set (m := state_mem block_0x800).
  assert (Et : alloc_table map = 0x60030) by (vm_compute; reflexivity).
  assert (Ec : alloc_count map = 3) by (vm_compute; reflexivity).
  assert (F : e820 map = fw_two) by (vm_compute; reflexivity).
  assert (R : round_boundary 0x800 = 0x1000) by (vm_compute; reflexivity).
  assert (P : find_suitable_addr map m 0x1000 = 0x101000)
    by (vm_compute; reflexivity).
  assert (L : live_records map m =
              [mk_alloc 0 0x60000 0x60000] ++ mk_alloc 0x60030 72 0x1000
              :: [mk_alloc 0x100000 0x800 0x1000])
    by (vm_compute; reflexivity).
  pose proof (malloc_in_place map m 0x800
                [mk_alloc 0 0x60000 0x60000] (mk_alloc 0x60030 72 0x1000)
                [mk_alloc 0x100000 0x800 0x1000]) as H.
  cbv zeta in H. rewrite R, P, Ec, Et in H.
  destruct (H ltac:(unfold table_fits, sizeof_pure64_alloc;
                    cbn [set_count alloc_table alloc_count];
                    rewrite Et; two64; lia)
              ltac:(unfold uint64; two64; lia)
              ltac:(rewrite F; repeat constructor; cbn; two64; lia)
              L eq_refl
              ltac:(repeat constructor; cbn; lia)
              ltac:(cbn; lia)
              ltac:(discriminate))
    as (m' & E & Hrec & _).
  exists m'. split; [exact E | exact Hrec].
Defined.

(** [pure64_map_malloc] while the table has room and [pure64_map_free] of
    the block, when the block's address is the base of no other record. *)
Lemma malloc_then_free_of_fresh_address map m size pre t rest :
  table_fits (set_count map (alloc_count map + 1)) ->
  uint64 size -> fw_in_range (e820 map) ->
  live_records map m = pre ++ t :: rest ->
  alloc_addr t = alloc_table map ->
  Forall (fun r => alloc_addr r <> alloc_table map) pre ->
  (alloc_count map + 1) * sizeof_pure64_alloc <= alloc_reserved t ->
  let p := find_suitable_addr map m (round_boundary size) in
  p <> NULL -> p <> MAX_ADDR ->
  Forall (fun r => alloc_addr r <> p /\ alloc_addr r <> MAX_ADDR)
         (pre ++ t :: rest) ->
  exists map1 m1 m2,
    pure64_map_malloc map m size = Some (p, map1, m1) /\
    pure64_map_free map1 m1 p = Some (map, m2) /\
    Permutation
      (pre ++ mk_alloc (alloc_table map)
                       ((alloc_count map + 1) * sizeof_pure64_alloc)
                       (alloc_reserved t) :: rest)
      (live_records map m2).
Proof.
  intros Hfit' Hsize Hfw Hl Ht Hpre Hroom p Hp Hpmax Hold.
  destruct (malloc_with_spare_slot map m size pre t rest
              Hfit' Hsize Hfw Hl Ht Hpre Hroom Hp)
    as (m1 & E1 & Hrec & _).
  fold p in E1, Hrec.
  set (map1 := set_count map (alloc_count map + 1)) in *.
  set (t' := mk_alloc (alloc_table map)
                      ((alloc_count map + 1) * sizeof_pure64_alloc)
                      (alloc_reserved t)) in *.
  set (new := mk_alloc p size (round_boundary size)) in *.
  assert (Hrec' : live_records map1 m1 = (pre ++ t' :: rest) ++ new :: [])
    by (rewrite Hrec, <- app_assoc; reflexivity).
  assert (Hold' : Forall (fun r => alloc_addr r <> p /\
                                   alloc_addr r <> MAX_ADDR)
                         (pre ++ t' :: rest)).
  { rewrite Forall_app in Hold |- *. destruct Hold as [H1 H2].
    split; [exact H1|].
    pose proof (Forall_inv H2) as Hti. cbv beta in Hti.
    constructor; [|exact (Forall_inv_tail H2)].
    cbn [t' alloc_addr]. now rewrite <- Ht. }
  destruct (free_unique_record map1 m1 p (pre ++ t' :: rest) new []
              Hfit' Hp Hrec' eq_refl)
    as (m2 & E2 & Hperm & _).
  - rewrite app_nil_r. eapply Forall_impl; [|exact Hold'].
    intros r [Hr _]. exact Hr.
  - rewrite Forall_app. split.
    + eapply Forall_impl; [|exact Hold']. intros r [_ Hr]. exact Hr.
    + constructor; [exact Hpmax | constructor].
  - assert (Emap : set_count map1 (alloc_count map1 - 1) = map).
    { destruct map as [fw tbl cnt drv].
      unfold map1, set_count; cbn [e820 alloc_table alloc_count ahci_driver].
      f_equal. lia. }
    rewrite Emap in *.
    exists map1, m1, m2. split; [exact E1|]. split; [exact E2|].
    rewrite app_nil_r in Hperm. exact Hperm.
Qed.

(** X16.  On a table of disjoint ascending records with non-empty
    reservations, none of which reaches into a usable firmware entry from
    below, and while the table has room: a successful [pure64_map_malloc]
    of a positive size followed by [pure64_map_free] of the block leaves
    the map as before the two calls, and the live records are, up to
    order, the ones there were, with the table's record holding the size
    the table grew to. *)
Theorem malloc_then_free map m size pre t rest :
  table_fits (set_count map (alloc_count map + 1)) ->
  0 < size <= 2 ^ 64 - 4096 ->
  fw_no_wrap (e820 map) ->
  live_records map m = pre ++ t :: rest ->
  alloc_addr t = alloc_table map ->
  Forall (fun r => alloc_addr r <> alloc_table map) pre ->
  (alloc_count map + 1) * sizeof_pure64_alloc <= alloc_reserved t ->
  disjoint_ascending (live_records map m) ->
  Forall (fun r => 0 < alloc_reserved r) (live_records map m) ->
  Forall (fun r => alloc_addr r + alloc_reserved r + round_boundary size
                   < 2 ^ 64) (live_records map m) ->
  no_straddle (e820 map) (live_records map m) ->
  let p := find_suitable_addr map m (round_boundary size) in
  p <> NULL ->
  exists map1 m1 m2,
    pure64_map_malloc map m size = Some (p, map1, m1) /\
    pure64_map_free map1 m1 p = Some (map, m2) /\
    Permutation
      (pre ++ mk_alloc (alloc_table map)
                       ((alloc_count map + 1) * sizeof_pure64_alloc)
                       (alloc_reserved t) :: rest)
      (live_records map m2).
Proof.
  intros Hfit' Hsize Hfw Hl Ht Hpre Hroom Hsort Hres Hends Hstr p Hp.
  assert (Hu : uint64 size) by (unfold uint64; two64; lia).
  assert (Hfwr : fw_in_range (e820 map)).
  { unfold fw_no_wrap, fw_in_range in *.
    eapply Forall_impl; [|exact Hfw].
    intros e (H1 & H2 & H3). unfold uint64. split; lia. }
  pose proof (round_boundary_bounds size ltac:(lia)) as [Hrb _].
  assert (Hcount : 0 <= alloc_count map).
  { pose proof (length_live_records map m) as Hlen.
    rewrite Hl, length_app in Hlen. cbn [length] in Hlen. lia. }
  destruct (find_suitable_loop_sound map m (round_boundary size)
              Hcount ltac:(lia) Hsort Hends (e820 map) Hfw Hstr Hp)
    as ((e & Hin & _ & _ & Hpe) & Hclear).
  fold (find_suitable_addr map m (round_boundary size)) in Hclear, Hpe.
  fold p in Hclear, Hpe.
  unfold fw_no_wrap in Hfw. rewrite Forall_forall in Hfw.
  destruct (Hfw e Hin) as (_ & _ & Hee).
  apply (malloc_then_free_of_fresh_address map m size pre t rest);
    auto.
  - unfold MAX_ADDR. two64. lia.
  - rewrite <- Hl. rewrite Forall_forall in *. intros r Hr.
    specialize (Hclear r Hr). specialize (Hres r Hr).
    specialize (Hends r Hr). unfold clear_of in Hclear.
    unfold MAX_ADDR. two64. split; lia.
Qed.

Lemma malloc_then_free_witness :
  exists map1 m1 m2,
    pure64_map_malloc (state_map block_0x800) (state_mem block_0x800) 0x800
      = Some (0x101000, map1, m1) /\
    pure64_map_free map1 m1 0x101000 = Some (state_map block_0x800, m2) /\
    Permutation
      [mk_alloc 0 0x60000 0x60000; mk_alloc 0x60030 96 0x1000;
       mk_alloc 0x100000 0x800 0x1000]
      (live_records (state_map block_0x800) m2).
Proof.
  set (map := state_map block_0x800). set (m := state_mem block_0x800).
  assert (Et : alloc_table map = 0x60030) by (vm_compute; reflexivity).
  assert (Ec : alloc_count map = 3) by (vm_compute; reflexivity).
  assert (F : e820 map = fw_two) by (vm_compute; reflexivity).
  assert (R : round_boundary 0x800 = 0x1000) by (vm_compute; reflexivity).
  assert (P : find_suitable_addr map m 0x1000 = 0x101000)
    by (vm_compute; reflexivity).
  assert (L : live_records map m =
              [mk_alloc 0 0x60000 0x60000] ++ mk_alloc 0x60030 72 0x1000
              :: [mk_alloc 0x100000 0x800 0x1000])
    by (vm_compute; reflexivity).
  pose proof (malloc_then_free map m 0x800
                [mk_alloc 0 0x60000 0x60000] (mk_alloc 0x60030 72 0x1000)
                [mk_alloc 0x100000 0x800 0x1000]) as H.
  cbv zeta in H. rewrite R, P, Ec, Et, F, L in H.
  apply H.
  - unfold table_fits, sizeof_pure64_alloc.
    cbn [set_count alloc_table alloc_count]. rewrite Et. two64. lia.
  - two64; lia.
  - repeat constructor; cbn; two64; lia.
  - reflexivity.
  - reflexivity.
  - repeat constructor; cbn; lia.
  - cbn; lia.
  - repeat constructor; unfold ends_before; cbn; lia.
  - repeat constructor; cbn; lia.
  - repeat constructor; cbn; two64; lia.
  - constructor; [|constructor; [|constructor]];
      intros _; repeat constructor; cbn; lia.
  - discriminate.
Defined.

(** ** Disjoint records stay disjoint *)

(** [ends_before] and [clear_of] look at [addr] and [reserved] only. *)
Lemma disjoint_ascending_resize pre t rest s :
  disjoint_ascending (pre ++ t :: rest) ->
  disjoint_ascending
    (pre ++ mk_alloc (alloc_addr t) s (alloc_reserved t) :: rest).
Proof.
  unfold disjoint_ascending.
  induction pre as [|a pre IH]; cbn [app]; intros H;
    apply StronglySorted_inv in H as [Hs Ha]; constructor; auto.
  rewrite Forall_app in Ha |- *. destruct Ha as [H1 H2].
  split; [exact H1|].
  constructor; [exact (Forall_inv H2) | exact (Forall_inv_tail H2)].
Qed.

(** Disjoint ascending records and a block that is clear of all of them
    pass the pairwise check. *)
Lemma non_overlapb_disjoint l p s r :
  disjoint_ascending l -> Forall (clear_of p r) l ->
  non_overlapb (l ++ [mk_alloc p s r]) = true.
Proof.
  unfold disjoint_ascending.
  induction l as [|a l IH]; intros Hs Hc; [reflexivity|].
  apply StronglySorted_inv in Hs as [Hs Ha].
  cbn [app non_overlapb]. apply andb_true_intro. split.
  - rewrite forallb_app. apply andb_true_intro. split.
    + apply forallb_forall. intros b Hb.
      rewrite Forall_forall in Ha. specialize (Ha b Hb).
      unfold ends_before in Ha. unfold overlap.
      apply negb_true_iff, andb_false_iff. right. apply Z.ltb_ge. lia.
    + cbn [forallb]. rewrite andb_true_r.
      pose proof (Forall_inv Hc) as Hca. unfold clear_of in Hca.
      unfold overlap. cbn [alloc_addr alloc_reserved].
      apply negb_true_iff, andb_false_iff.
      destruct Hca; [left | right]; apply Z.ltb_ge; lia.
  - apply IH; [exact Hs | exact (Forall_inv_tail Hc)].
Qed.

(** X17.  While the table has room, [pure64_map_malloc] keeps the live
    records from overlapping: on a table of disjoint ascending records
    none of which reaches into a usable firmware entry from below, the
    records after a successful call do not overlap pairwise. *)
Theorem malloc_in_place_keeps_records_apart map m size pre t rest :
  table_fits (set_count map (alloc_count map + 1)) ->
  0 < size <= 2 ^ 64 - 4096 ->
  fw_no_wrap (e820 map) ->
  live_records map m = pre ++ t :: rest ->
  alloc_addr t = alloc_table map ->
  Forall (fun r => alloc_addr r <> alloc_table map) pre ->
  (alloc_count map + 1) * sizeof_pure64_alloc <= alloc_reserved t ->
  disjoint_ascending (live_records map m) ->
  Forall (fun r => alloc_addr r + alloc_reserved r + round_boundary size
                   < 2 ^ 64) (live_records map m) ->
  no_straddle (e820 map) (live_records map m) ->
  let p := find_suitable_addr map m (round_boundary size) in
  let map' := set_count map (alloc_count map + 1) in
  p <> NULL ->
  exists m',
    pure64_map_malloc map m size = Some (p, map', m') /\
    non_overlap (live_records map' m').
Proof.
  intros Hfit' Hsize Hfw Hl Ht Hpre Hroom Hsort Hends Hstr p map' Hp.
  assert (Hu : uint64 size) by (unfold uint64; two64; lia).
  assert (Hfwr : fw_in_range (e820 map)).
  { unfold fw_no_wrap, fw_in_range in *.
    eapply Forall_impl; [|exact Hfw].
    intros e (H1 & H2 & H3). unfold uint64. split; lia. }
  destruct (malloc_with_spare_slot map m size pre t rest
              Hfit' Hu Hfwr Hl Ht Hpre Hroom Hp)
    as (m' & E & Hrec & _).
  exists m'. split; [exact E|].
  fold p map' in Hrec. rewrite Hrec.
  pose proof (round_boundary_bounds size ltac:(lia)) as [Hrb _].
  pose proof Hfit' as (_ & Hc & _). cbn [set_count alloc_count] in Hc.
  assert (Hcount : 0 <= alloc_count map).
  { pose proof (length_live_records map m) as Hlen.
    rewrite Hl, length_app in Hlen. cbn [length] in Hlen. lia. }
  destruct (find_suitable_loop_sound map m (round_boundary size)
              Hcount ltac:(lia) Hsort Hends (e820 map) Hfw Hstr Hp)
    as (_ & Hclear).
  fold (find_suitable_addr map m (round_boundary size)) in Hclear.
  fold p in Hclear. rewrite Hl in Hsort, Hclear.
  apply non_overlapb_sound.
  replace (pre ++ mk_alloc (alloc_table map)
                  ((alloc_count map + 1) * sizeof_pure64_alloc)
                  (alloc_reserved t)
               :: rest ++ [mk_alloc p size (round_boundary size)])
    with ((pre ++ mk_alloc (alloc_addr t)
                   ((alloc_count map + 1) * sizeof_pure64_alloc)
                   (alloc_reserved t) :: rest)
          ++ [mk_alloc p size (round_boundary size)])
    by (rewrite Ht, <- app_assoc; reflexivity).
  apply non_overlapb_disjoint.
  - now apply disjoint_ascending_resize.
  - rewrite Forall_app in Hclear |- *. destruct Hclear as [H1 H2].
    split; [exact H1|].
    constructor; [exact (Forall_inv H2) | exact (Forall_inv_tail H2)].
Qed.

Lemma malloc_in_place_keeps_records_apart_witness :
  exists m',
    pure64_map_malloc (state_map block_0x800) (state_mem block_0x800) 0x800
      = Some (0x101000, set_count (state_map block_0x800) 4, m') /\
    non_overlap (live_records (set_count (state_map block_0x800) 4) m').
Proof.
  set (map := state_map block_0x800). set (m := state_mem block_0x800).
  assert (Et : alloc_table map = 0x60030) by (vm_compute; reflexivity).
  assert (Ec : alloc_count map = 3) by (vm_compute; reflexivity).
  assert (F : e820 map = fw_two) by (vm_compute; reflexivity).
  assert (R : round_boundary 0x800 = 0x1000) by (vm_compute; reflexivity).
  assert (P : find_suitable_addr map m 0x1000 = 0x101000)
    by (vm_compute; reflexivity).
  assert (L : live_records map m =
              [mk_alloc 0 0x60000 0x60000] ++ mk_alloc 0x60030 72 0x1000
              :: [mk_alloc 0x100000 0x800 0x1000])
    by (vm_compute; reflexivity).
  pose proof (malloc_in_place_keeps_records_apart map m 0x800
                [mk_alloc 0 0x60000 0x60000] (mk_alloc 0x60030 72 0x1000)
                [mk_alloc 0x100000 0x800 0x1000]) as H.
  cbv zeta in H. rewrite R, P, Ec, Et, F, L in H.
  apply H.
  - unfold table_fits, sizeof_pure64_alloc.
    cbn [set_count alloc_table alloc_count]. rewrite Et. two64. lia.
  - two64; lia.
  - repeat constructor; cbn; two64; lia.
  - reflexivity.
  - reflexivity.
  - repeat constructor; cbn; lia.
  - cbn; lia.
  - repeat constructor; unfold ends_before; cbn; lia.
  - repeat constructor; cbn; two64; lia.
  - constructor; [|constructor; [|constructor]];
      intros _; repeat constructor; cbn; lia.
  - discriminate.
Defined.
